(** * sanic/handlers.py: the [ErrorHandler] registry and its dispatch guard

    A shallow embedding of [ErrorHandler.add], [ErrorHandler.lookup],
    [ErrorHandler.log], [ErrorHandler.default] and [ErrorHandler.response],
    followed by the properties of the exception-to-handler dispatch that the
    specification states about them.

    Python names are kept.  The dict [cached_handlers] is a [gmap]; Python
    exceptions are an explicit [Raise] outcome threaded together with the
    mutable state. *)

From Stdlib Require Import Ascii String ZArith DecimalString.
From stdpp Require Import base option list gmap strings.

Local Open Scope string_scope.
Local Open Scope list_scope.

(** ** Python values and external objects *)

(** The values an attribute read through [getattr] may hold.  [x is False]
    and [x is True] are identity tests against the two bool singletons: *)
Inductive PyVal :=
  | PyNone
  | PyBool (b : bool)
  | PyInt (n : Z)
  | PyStr (s : string).

Definition is_False (v : PyVal) : bool :=
  match v with PyBool false => true | _ => false end.

Definition is_True (v : PyVal) : bool :=
  match v with PyBool true => true | _ => false end.

(** [getattr(obj, attr, default)] on an attribute that may be missing. *)
Definition getattr_default (attr : option PyVal) (default : PyVal) : PyVal :=
  match attr with Some v => v | None => default end.

(** The request, reduced to the accessors the handler module reads:
    [request.name], [request.url] ([None] when reading it raises
    [AttributeError]) and [request.app.config.NOISY_EXCEPTIONS] ([None] when
    the configuration has no such attribute). *)
Record Request := {
  req_name : option string;
  req_url : option string;
  req_NOISY_EXCEPTIONS : option PyVal;
}.

Record HTTPResponse := {
  resp_body : string;
  resp_status : Z;
  resp_content_type : string;
}.

(** Modelled from the spec: [sanic.response.text] is imported by the module
    and is not among the sources; section 4.2 describes its result as a
    textual response with the given body and HTTP status. *)
Definition text (body : string) (status : Z) : HTTPResponse :=
  {| resp_body := body; resp_status := status;
     resp_content_type := "text/plain; charset=utf-8" |}.

(** Modelled from the spec: the renderer classes of [sanic.errorpages]
    (html / text / json, section 1) are not among the sources; the module
    only stores one of them in [self.base] and passes it on. *)
Inductive BaseRenderer := HTMLRenderer | TextRenderer | JSONRenderer.

(** One call of [error_logger.exception(msg, *args)]. *)
Record LogRecord := {
  log_msg : string;
  log_args : list string;
}.

(** ** The class hierarchy

    Exception classes are compared by identity and used as dict keys.
    [ancestors c] is [type.mro(c)] without its first element, which is always
    [c] itself. *)
Class Hierarchy (Cls : Type) `{Countable Cls} := {
  BaseException : Cls;
  Exception : Cls;
  AttributeError : Cls;
  KeyError : Cls;
  ancestors : Cls → list Cls;
  (** the builtin [AttributeError] derives from [Exception] *)
  AttributeError_Exception : Exception ∈ ancestors AttributeError;
}.

Section Model.
Context `{Hierarchy Cls}.

Definition mro (c : Cls) : list Cls := c :: ancestors c.

(** An exception instance: its class ([type(exception)]) and its optional
    [quiet] attribute. *)
Record Exc := {
  exc_class : Cls;
  exc_quiet : option PyVal;
}.

(** [isinstance(e, cls)] *)
Definition isinstance (e : Exc) (c : Cls) : bool :=
  bool_decide (c ∈ mro (exc_class e)).

(** Outcome of a Python call: a value, or a raised exception. *)
Inductive Res (A : Type) :=
  | Ok (a : A)
  | Raise (e : Exc).
Global Arguments Ok {A} a.
Global Arguments Raise {A} e.

(** Stateful, fallible computations: the state survives a raise. *)
Definition M (S A : Type) : Type := S → Res A * S.

Definition ret {S A} (a : A) : M S A := λ s, (Ok a, s).
Definition bind {S A B} (m : M S A) (f : A → M S B) : M S B :=
  λ s, match m s with
       | (Ok a, s') => f a s'
       | (Raise e, s') => (Raise e, s')
       end.
Definition raise {S A} (e : Exc) : M S A := λ s, (Raise e, s).
Definition get_state {S} : M S S := λ s, (Ok s, s).
Definition modify {S} (f : S → S) : M S unit := λ s, (Ok tt, f s).
Definition lift_res {S A} (r : Res A) : M S A := λ s, (r, s).

(** [try: body except <caught>: handler] *)
Definition try_except {S A} (body : M S A) (caught : Exc → bool)
    (handler : Exc → M S A) : M S A :=
  λ s, match body s with
       | (Ok a, s') => (Ok a, s')
       | (Raise e, s') => if caught e then handler e s' else (Raise e, s')
       end.

Global Instance M_ret {S} : MRet (M S) := λ A, ret.
Global Instance M_bind {S} : MBind (M S) := λ A B f m, bind m f.

Definition eval {S A} (m : M S A) (s : S) : Res A := fst (m s).
Definition exec {S A} (m : M S A) (s : S) : S := snd (m s).

(** A registered handler is a callable object, which is truthy: calling
    it returns a response, returns [None], or raises.  A function carries
    a [__name__]; other callables ([functools.partial], an instance of a
    class with [__call__]) have none, [h_name] is then [None]. *)
Record Handler := {
  h_name : option string;
  h_call : option Request → Exc → Res (option HTTPResponse);
}.

(** Instance attributes of [ErrorHandler]. *)
Record ErrorHandler := {
  handlers : list (Cls * Handler);
  cached_handlers : gmap (Cls * option string) (option Handler);
  debug : bool;
  fallback : string;
  base : BaseRenderer;
}.

Definition __init__ (fallback : string) (base : BaseRenderer) : ErrorHandler :=
  {| handlers := []; cached_handlers := ∅; debug := false;
     fallback := fallback; base := base |}.

Definition set_handlers (f : list (Cls * Handler) → list (Cls * Handler))
    (self : ErrorHandler) : ErrorHandler :=
  {| handlers := f (handlers self); cached_handlers := cached_handlers self;
     debug := debug self; fallback := fallback self; base := base self |}.

Definition set_cached_handlers
    (f : gmap (Cls * option string) (option Handler) →
         gmap (Cls * option string) (option Handler))
    (self : ErrorHandler) : ErrorHandler :=
  {| handlers := handlers self; cached_handlers := f (cached_handlers self);
     debug := debug self; fallback := fallback self; base := base self |}.

Definition set_debug (b : bool) (self : ErrorHandler) : ErrorHandler :=
  {| handlers := handlers self; cached_handlers := cached_handlers self;
     debug := b; fallback := fallback self; base := base self |}.

(** *** Dict operations on [self.cached_handlers] *)

(** [d.get(key)]: [None] both for a missing key and for a stored [None]. *)
Definition dict_get (d : gmap (Cls * option string) (option Handler))
    (key : Cls * option string) : option Handler :=
  match d !! key with Some v => v | None => None end.

(** [key in d] *)
Definition dict_contains (d : gmap (Cls * option string) (option Handler))
    (key : Cls * option string) : bool :=
  bool_decide (is_Some (d !! key)).

(** [self.cached_handlers[key]]: raises [KeyError] on a missing key. *)
Definition cached_getitem (key : Cls * option string)
    : M ErrorHandler (option Handler) :=
  λ self, match cached_handlers self !! key with
          | Some v => (Ok v, self)
          | None => (Raise {| exc_class := KeyError; exc_quiet := None |}, self)
          end.

(** [self.cached_handlers[key] = value] *)
Definition cached_setitem (key : Cls * option string) (value : option Handler)
    : M ErrorHandler unit :=
  modify (set_cached_handlers (λ d, <[key := value]> d)).

(** [for x in xs: body] for a body that neither returns nor breaks. *)
Fixpoint for_each {S A} (xs : list A) (body : A → M S unit) : M S unit :=
  match xs with
  | [] => mret tt
  | x :: xs' => body x;; for_each xs' body
  end.

(** *** [ErrorHandler.add] *)
Definition add (exception : Cls) (handler : Handler)
    (route_names : option (list string)) : M ErrorHandler unit :=
  modify (set_handlers (λ l, l ++ [(exception, handler)]));;
  match route_names with
  | Some (route :: routes) =>
      for_each (route :: routes)
        (λ route, cached_setitem (exception, Some route) (Some handler))
  | Some [] | None =>
      cached_setitem (exception, None) (Some handler)
  end.

(** *** [ErrorHandler.lookup] *)

(** First loop: [for name in (route_name, None)] probing the exact class
    with [.get] and a truthiness test. *)
Fixpoint lookup_exact (self : ErrorHandler) (exception_class : Cls)
    (names : list (option string)) : option Handler :=
  match names with
  | [] => None
  | name :: names' =>
      let exception_key := (exception_class, name) in
      match dict_get (cached_handlers self) exception_key with
      | Some handler => Some handler
      | None => lookup_exact self exception_class names'
      end
  end.

(** Inner loop of the second phase: [for ancestor in type.mro(...)].
    [Some handler] is the [return handler] (after the write under the
    looked-up key); [None] means the loop ended, by exhaustion or by the
    [break] after [BaseException]. *)
Fixpoint lookup_mro (exception_class : Cls) (route_name name : option string)
    (classes : list Cls) : M ErrorHandler (option (option Handler)) :=
  match classes with
  | [] => mret None
  | ancestor :: classes' =>
      let exception_key := (ancestor, name) in
      self ← get_state;
      if dict_contains (cached_handlers self) exception_key then
        handler ← cached_getitem exception_key;
        cached_setitem (exception_class, route_name) handler;;
        mret (Some handler)
      else if bool_decide (ancestor = BaseException) then mret None
      else lookup_mro exception_class route_name name classes'
  end.

(** Outer loop of the second phase: [for name in (route_name, None)]. *)
Fixpoint lookup_names (exception_class : Cls) (route_name : option string)
    (names : list (option string)) : M ErrorHandler (option (option Handler)) :=
  match names with
  | [] => mret None
  | name :: names' =>
      found ← lookup_mro exception_class route_name name (mro exception_class);
      match found with
      | Some handler => mret (Some handler)
      | None => lookup_names exception_class route_name names'
      end
  end.

Definition lookup (exception : Exc) (route_name : option string)
    : M ErrorHandler (option Handler) :=
  let exception_class := exc_class exception in
  self ← get_state;
  match lookup_exact self exception_class [route_name; None] with
  | Some handler => mret (Some handler)
  | None =>
      found ← lookup_names exception_class route_name [route_name; None];
      match found with
      | Some handler => mret handler
      | None =>
          cached_setitem (exception_class, route_name) None;;
          mret None
      end
  end.

Definition _full_lookup (exception : Exc) (route_name : option string)
    : M ErrorHandler (option Handler) :=
  lookup exception route_name.

Definition _legacy_lookup (exception : Exc) (route_name : option string)
    : M ErrorHandler (option Handler) :=
  lookup exception None.

(** [_lookup = _full_lookup] *)
Definition _lookup := _full_lookup.

(** ** The dispatch guard *)

(** External collaborators of the module: the builtin [repr] on a URL
    string, and [sanic.errorpages.exception_response], the renderer of the
    default path, which returns a response or raises. *)
Class Collaborators := {
  repr : string → string;
  exception_response :
    option Request → Exc → bool → BaseRenderer → string → Res HTTPResponse;
}.

Context `{Collaborators}.

(** The handler object together with the module-level [error_logger]. *)
Record World := {
  eh : ErrorHandler;
  error_logger : list LogRecord;
}.

(** Run a method that only touches [self]. *)
Definition on_self {A} (m : M ErrorHandler A) : M World A :=
  λ w, let (r, self') := m (eh w) in
       (r, {| eh := self'; error_logger := error_logger w |}).

(** [error_logger.exception(msg, *args)] *)
Definition logger_exception (msg : string) (args : list string) : M World unit :=
  modify (λ w, {| eh := eh w;
                  error_logger := error_logger w ++
                                  [{| log_msg := msg; log_args := args |}] |}).

(** [fmt % args] for a format that only uses [%s] with string arguments. *)
Fixpoint percent_format (fmt : string) (args : list string) : string :=
  match fmt with
  | EmptyString => EmptyString
  | String "%"%char (String "s"%char rest) =>
      match args with
      | a :: args' => a +:+ percent_format rest args'
      | [] => String "%"%char (String "s"%char (percent_format rest []))
      end
  | String c rest => String c (percent_format rest args)
  end.

Definition dquote : string := String (ascii_of_nat 34) EmptyString.

(** [try: url = repr(request.url)  except AttributeError: url = "unknown"];
    an absent request has no [url] attribute either. *)
Definition url_or_unknown (request : option Request) : string :=
  match request ≫= req_url with
  | Some u => repr u
  | None => "unknown"
  end.

(** [handler.__name__]: [None] has no such attribute, and neither has a
    callable that is not a function. *)
Definition getattr___name__ {S} (handler : option Handler) : M S string :=
  match handler with
  | Some h =>
      match h_name h with
      | Some name => mret name
      | None => raise {| exc_class := AttributeError; exc_quiet := None |}
      end
  | None => raise {| exc_class := AttributeError; exc_quiet := None |}
  end.

(** *** [ErrorHandler.log] (a static method) *)
Definition log (request : option Request) (exception : Exc) : M World unit :=
  let quiet := getattr_default (exc_quiet exception) (PyBool false) in
  match request with
  | None => raise {| exc_class := AttributeError; exc_quiet := None |}
  | Some req =>
      let noisy := getattr_default (req_NOISY_EXCEPTIONS req) (PyBool false) in
      if is_False quiet || is_True noisy then
        let url := url_or_unknown request in
        logger_exception "Exception occurred while handling uri: %s" [url]
      else mret tt
  end.

(** *** [ErrorHandler.default] *)
Definition default (request : option Request) (exception : Exc)
    : M World HTTPResponse :=
  log request exception;;
  w ← get_state;
  lift_res (exception_response request exception
              (debug (eh w)) (base (eh w)) (fallback (eh w))).

(** *** [ErrorHandler.response] *)
Definition response_message : string :=
  "Exception raised in exception handler " +:+ dquote +:+ "%s" +:+ dquote
    +:+ " for uri: %s".

(** The [try] block of [response]. *)
Definition response_try (request : option Request) (exception : Exc)
    (handler : option Handler) : M World HTTPResponse :=
  response ← match handler with
             | Some h => lift_res (h_call h request exception)
             | None => mret None
             end;
  match response with
  | None => default request exception
  | Some r => mret r
  end.

(** The [except Exception] block of [response]. *)
Definition response_except (request : option Request)
    (handler : option Handler) : M World HTTPResponse :=
  let url := url_or_unknown request in
  name ← getattr___name__ handler;
  logger_exception response_message [name; url];;
  w ← get_state;
  if debug (eh w) then
    name ← getattr___name__ handler;
    mret (text (percent_format response_message [name; url]) 500)
  else
    mret (text "An error occurred while handling an error" 500).

Definition response (request : option Request) (exception : Exc)
    : M World HTTPResponse :=
  let route_name :=
    match request with Some req => req_name req | None => None end in
  handler ← on_self (_lookup exception route_name);
  try_except
    (response_try request exception handler)
    (λ e, isinstance e Exception)
    (λ _, response_except request handler).

End Model.

Global Arguments Exc Cls : clear implicits.
Global Arguments Handler Cls : clear implicits.
Global Arguments ErrorHandler Cls {_ _}.
Global Arguments World Cls {_ _}.
Global Arguments Collaborators Cls : clear implicits.

(** ** Notions used to state the properties *)

(** [needle] occurs in [hay]. *)
Definition contains (needle hay : string) : Prop :=
  ∃ pre post, hay = pre +:+ needle +:+ post.

(** A flag read through [getattr(_, _, False)] that is a boolean, [b]
    being its value ([false] when the attribute is absent). *)
Definition flag_value (attr : option PyVal) (b : bool) : Prop :=
  attr = Some (PyBool b) ∨ (attr = None ∧ b = false).

Section Notions.
Context `{Hierarchy Cls}.

(** The prefix of an MRO up to and including [BaseException]. *)
Fixpoint upto_base (classes : list Cls) : list Cls :=
  match classes with
  | [] => []
  | c :: classes' =>
      if bool_decide (c = BaseException) then [c] else c :: upto_base classes'
  end.

(** The classes one scope's walk inspects for an instance of [c]. *)
Definition chain (c : Cls) : list Cls := upto_base (mro c).

(** The value stored under the first class of [classes] that is a key of
    the table in scope [name]. *)
Fixpoint nearest (d : gmap (Cls * option string) (option (Handler Cls)))
    (name : option string) (classes : list Cls) : option (option (Handler Cls)) :=
  match classes with
  | [] => None
  | c :: classes' =>
      match d !! (c, name) with
      | Some v => Some v
      | None => nearest d name classes'
      end
  end.

(** Every key of the table lies in scope [sc]. *)
Definition only_scope (d : gmap (Cls * option string) (option (Handler Cls)))
    (sc : option string) : Prop :=
  map_Forall (λ key _, key.2 = sc) d.

(** [add] with exactly the scope a later [lookup] is made with. *)
Definition scopes_of (route_name : option string) : option (list string) :=
  match route_name with Some r => Some [r] | None => None end.

(** The first entry of the table, if any, among [classes] in one scope. *)
Fixpoint first_entry (entries : gmap (Cls * option string) (Handler Cls))
    (scope : option string) (classes : list Cls) : option (Handler Cls) :=
  match classes with
  | [] => None
  | c :: classes' =>
      match entries !! (c, scope) with
      | Some h => Some h
      | None => first_entry entries scope classes'
      end
  end.

(** Resolution without a cache, following the words of the specification
    (section 4.1, steps 1, 3 and 4) over the table of registered entries:
    the exact runtime type in the route scope, then globally; then the
    ancestor chain (the runtime type itself excluded, the universal base
    type included and last) in the route scope, then globally. *)
Definition resolve_uncached (entries : gmap (Cls * option string) (Handler Cls))
    (exceptionInstance : Exc Cls) (routeScope : option string)
    : option (Handler Cls) :=
  let runtimeType := exc_class exceptionInstance in
  match entries !! (runtimeType, routeScope) with
  | Some h => Some h
  | None =>
  match entries !! (runtimeType, None) with
  | Some h => Some h
  | None =>
  match first_entry entries routeScope (tail (chain runtimeType)) with
  | Some h => Some h
  | None => first_entry entries None (tail (chain runtimeType))
  end end end.

End Notions.

(** ** A concrete hierarchy

    The builtin classes involved, [class A(Exception)], [class B(A)],
    [class C(B)], and [class X(Exception)], [class Z(Exception)],
    [class Y(X, Z)]. *)
Inductive PyClass :=
  | c_object | c_BaseException | c_Exception | c_LookupError | c_KeyError
  | c_AttributeError | c_KeyboardInterrupt | c_A | c_B | c_C
  | c_X | c_Z | c_Y.

Global Instance PyClass_eq_dec : EqDecision PyClass.
Proof. solve_decision. Defined.

Definition PyClass_to_nat (c : PyClass) : nat :=
  match c with
  | c_object => 0 | c_BaseException => 1 | c_Exception => 2
  | c_LookupError => 3 | c_KeyError => 4 | c_AttributeError => 5
  | c_KeyboardInterrupt => 6 | c_A => 7 | c_B => 8 | c_C => 9
  | c_X => 10 | c_Z => 11 | c_Y => 12
  end%nat.

Definition PyClass_of_nat (n : nat) : PyClass :=
  match n with
  | 0 => c_object | 1 => c_BaseException | 2 => c_Exception
  | 3 => c_LookupError | 4 => c_KeyError | 5 => c_AttributeError
  | 6 => c_KeyboardInterrupt | 7 => c_A | 8 => c_B | 9 => c_C
  | 10 => c_X | 11 => c_Z | _ => c_Y
  end%nat.

Global Instance PyClass_countable : Countable PyClass.
Proof.
  apply (inj_countable' PyClass_to_nat PyClass_of_nat).
  intros []; reflexivity.
Defined.

Definition PyClass_ancestors (c : PyClass) : list PyClass :=
  match c with
  | c_object => []
  | c_BaseException => [c_object]
  | c_Exception => [c_BaseException; c_object]
  | c_LookupError => [c_Exception; c_BaseException; c_object]
  | c_KeyError => [c_LookupError; c_Exception; c_BaseException; c_object]
  | c_AttributeError => [c_Exception; c_BaseException; c_object]
  | c_KeyboardInterrupt => [c_BaseException; c_object]
  | c_A => [c_Exception; c_BaseException; c_object]
  | c_B => [c_A; c_Exception; c_BaseException; c_object]
  | c_C => [c_B; c_A; c_Exception; c_BaseException; c_object]
  | c_X => [c_Exception; c_BaseException; c_object]
  | c_Z => [c_Exception; c_BaseException; c_object]
  | c_Y => [c_X; c_Z; c_Exception; c_BaseException; c_object]
  end.

Global Program Instance PyClass_hierarchy : Hierarchy PyClass := {|
  BaseException := c_BaseException;
  Exception := c_Exception;
  AttributeError := c_AttributeError;
  KeyError := c_KeyError;
  ancestors := PyClass_ancestors;
|}.
Next Obligation. apply list_elem_of_here. Qed.

(** [repr] of a URL made of plain printable characters, and a renderer that
    always answers with an error page. *)
Global Instance demo_collaborators : Collaborators PyClass := {|
  repr := λ u, "'" +:+ u +:+ "'";
  exception_response := λ _ _ _ _ _,
    Ok {| resp_body := "error page"; resp_status := 500%Z;
          resp_content_type := "text/html; charset=utf-8" |};
|}.

Definition instance_of (c : PyClass) : Exc PyClass :=
  {| exc_class := c; exc_quiet := None |}.

Definition ok_handler (name : string) : Handler PyClass :=
  {| h_name := Some name;
     h_call := λ _ _, Ok (Some (text name 200%Z)) |}.

Definition raising_handler (name : string) (c : PyClass) : Handler PyClass :=
  {| h_name := Some name;
     h_call := λ _ _, Raise (instance_of c) |}.

(** A callable without [__name__] that raises an instance of [c]. *)
Definition nameless_handler (c : PyClass) : Handler PyClass :=
  {| h_name := None;
     h_call := λ _ _, Raise (instance_of c) |}.

Definition H1 : Handler PyClass := ok_handler "H1".
Definition H2 : Handler PyClass := ok_handler "H2".

Definition fresh : ErrorHandler PyClass := __init__ "auto" HTMLRenderer.

Definition world (self : ErrorHandler PyClass) : World PyClass :=
  {| eh := self; error_logger := [] |}.

Definition demo_request (name : option string) : Request :=
  {| req_name := name; req_url := Some "http://localhost/x";
     req_NOISY_EXCEPTIONS := None |}.


(** [add(A, H1); add(B, H2)]: handlers for [A] and [B] only. *)
Definition registry_A_B : ErrorHandler PyClass :=
  exec (add c_A H1 None;; add c_B H2 None) fresh.

(** The same registration as a table of entries. *)
Definition entries_A_B : gmap (PyClass * option string) (Handler PyClass) :=
  {[ (c_A, None) := H1; (c_B, None) := H2 ]}.

(** [add(Z, HZ)]: of the bases of [Y], only [Z] has a handler. *)
Definition HZ : Handler PyClass := ok_handler "HZ".

Definition registry_Z : ErrorHandler PyClass :=
  exec (add c_Z HZ None) fresh.

(** [add(B, H2)], and the same registration as a table of entries. *)
Definition registry_B : ErrorHandler PyClass :=
  exec (add c_B H2 None) fresh.

Definition entries_B : gmap (PyClass * option string) (Handler PyClass) :=
  {[ (c_B, None) := H2 ]}.

(** A registry whose only handler, registered globally for [C], is [h]. *)
Definition registry_C (h : Handler PyClass) : ErrorHandler PyClass :=
  exec (add c_C h None) fresh.

Definition quiet_exception : Exc PyClass :=
  {| exc_class := c_C; exc_quiet := Some (PyBool true) |}.

(** ** Runs of the registry, and [ErrorHandler.finalize] *)

Section Runs.
Context `{Hierarchy Cls}.

(** Every handler stored in the table has been appended to
    [self.handlers]. *)
Definition stored_handlers_registered (self : ErrorHandler Cls) : Prop :=
  ∀ key h, cached_handlers self !! key = Some (Some h) →
           h ∈ (handlers self).*2.

(** One call of a method of the registry. *)
Inductive RegistryCall :=
  | CallAdd (exception : Cls) (handler : Handler Cls)
      (route_names : option (list string))
  | CallLookup (exception : Exc Cls) (route_name : option string).

Definition run_call (call : RegistryCall) : M (ErrorHandler Cls) unit :=
  match call with
  | CallAdd exception handler route_names => add exception handler route_names
  | CallLookup exception route_name => lookup exception route_name;; mret tt
  end.

(** The [(exception, handler)] pairs passed to [add] in a list of calls. *)
Definition added_pairs (calls : list RegistryCall) : list (Cls * Handler Cls) :=
  omap (λ call, match call with
                | CallAdd exception handler _ => Some (exception, handler)
                | CallLookup _ _ => None
                end) calls.

(** The keys [add] writes for a given [route_names] argument. *)
Definition add_keys (exception : Cls) (route_names : option (list string))
    : list (Cls * option string) :=
  match route_names with
  | Some (route :: routes) => (λ r, (exception, Some r)) <$> (route :: routes)
  | Some [] | None => [(exception, None)]
  end.

(** The table of entries that a list of [add] calls, given by their
    arguments, registers on top of [entries]. *)
Definition registered_entries
    (entries : gmap (Cls * option string) (Handler Cls))
    (adds : list (Cls * Handler Cls * option (list string)))
    : gmap (Cls * option string) (Handler Cls) :=
  foldl (λ entries '(exception, handler, route_names),
           foldl (λ entries key, <[key := handler]> entries) entries
                 (add_keys exception route_names))
        entries adds.

Definition add_calls (adds : list (Cls * Handler Cls * option (list string)))
    : list RegistryCall :=
  (λ '(exception, handler, route_names),
     CallAdd exception handler route_names) <$> adds.

Definition set_fallback (fallback : string) (self : ErrorHandler Cls)
    : ErrorHandler Cls :=
  {| handlers := handlers self; cached_handlers := cached_handlers self;
     debug := debug self; fallback := fallback; base := base self |}.

(** [error_handler.fallback] *)
Definition fallback_of (self : ErrorHandler Cls) : string := fallback self.

(** Which method the attribute [_lookup] is bound to. *)
Inductive LookupBinding := Bound_full_lookup | Bound_legacy_lookup.

(** The object handed to [finalize]: its instance attributes, whether it is
    an instance of the class [finalize] is called on, the text of its type,
    the number of parameters of its bound [lookup] method, whether it has
    an attribute [_legacy_lookup] of its own (an instance of the class
    inherits one), and the binding of [_lookup].  The object is taken to
    carry the attributes [fallback] and [lookup] that [finalize] reads. *)
Record HandlerObject := {
  obj_attrs : ErrorHandler Cls;
  obj_isinstance_cls : bool;
  obj_type_text : string;
  obj_lookup_parameters : nat;
  obj_has__legacy_lookup : bool;
  obj__lookup : LookupBinding;
}.

Definition deprecation_message : string :=
  "You are using a deprecated error handler. The lookup " +:+
  "method should accept two positional parameters: " +:+
  "(exception, route_name: Optional[str]). " +:+
  "Until you upgrade your ErrorHandler.lookup, Blueprint " +:+
  "specific exceptions will not work properly. Beginning " +:+
  "in v22.3, the legacy style lookup method will not " +:+
  "work at all.".

(** *** [ErrorHandler.finalize] (a class method)

    The result is the object after the call, the messages passed to
    [error_logger.warning], in order, and the outcome: reading
    [error_handler._legacy_lookup] raises [AttributeError] when the object
    has no such attribute, after the deprecation warning and before
    [_lookup] is bound. *)
Definition finalize (error_handler : HandlerObject) (fallback : option string)
    : HandlerObject * (list string * Res unit) :=
  let attrs := obj_attrs error_handler in
  let attrs1 :=
    match fallback with
    | Some fb =>
        if negb (String.eqb fb EmptyString) && negb (String.eqb fb "auto")
           && String.eqb (fallback_of attrs) "auto"
        then set_fallback fb attrs else attrs
    | None => attrs
    end in
  let warnings1 :=
    if negb (obj_isinstance_cls error_handler)
    then ["Error handler is non-conforming: " +:+ obj_type_text error_handler]
    else [] in
  let with_lookup binding :=
    {| obj_attrs := attrs1;
       obj_isinstance_cls := obj_isinstance_cls error_handler;
       obj_type_text := obj_type_text error_handler;
       obj_lookup_parameters := obj_lookup_parameters error_handler;
       obj_has__legacy_lookup := obj_has__legacy_lookup error_handler;
       obj__lookup := binding |} in
  if Nat.eqb (obj_lookup_parameters error_handler) 1 then
    if obj_isinstance_cls error_handler
       || obj_has__legacy_lookup error_handler
    then (with_lookup Bound_legacy_lookup,
          (warnings1 ++ [deprecation_message], Ok tt))
    else (with_lookup (obj__lookup error_handler),
          (warnings1 ++ [deprecation_message],
           Raise {| exc_class := AttributeError; exc_quiet := None |}))
  else
    (with_lookup (obj__lookup error_handler), (warnings1, Ok tt)).

End Runs.

Global Arguments RegistryCall Cls : clear implicits.
Global Arguments HandlerObject Cls {_ _}.

(** ** [ContentRangeHandler]

    Strings are sequences of characters with code points below 256. *)

(** [c.isspace()] *)
Definition isspace (a : ascii) : bool :=
  let n := nat_of_ascii a in
  ((9 <=? n) && (n <=? 13) || (28 <=? n) && (n <=? 31) || (n =? 32)
   || (n =? 133) || (n =? 160))%nat.

(** [s.lstrip()], [s.rstrip()] and [s.strip()] *)
Fixpoint lstrip (s : string) : string :=
  match s with
  | EmptyString => EmptyString
  | String a rest => if isspace a then lstrip rest else s
  end.

Fixpoint rstrip (s : string) : string :=
  match s with
  | EmptyString => EmptyString
  | String a rest =>
      match rstrip rest with
      | EmptyString => if isspace a then EmptyString else String a EmptyString
      | kept => String a kept
      end
  end.

Definition strip (s : string) : string := rstrip (lstrip s).

(** [s.partition(sep)] for a separator of one character: the text before
    its first occurrence, the separator, the text after it; or the whole
    text and two empty strings when it does not occur. *)
Fixpoint partition (sep : ascii) (s : string) : string * string * string :=
  match s with
  | EmptyString => (EmptyString, EmptyString, EmptyString)
  | String a rest =>
      if Ascii.eqb a sep then (EmptyString, String sep EmptyString, rest)
      else
        let '(before, found, after) := partition sep rest in
        (String a before, found, after)
  end.

(** [sep in s] *)
Fixpoint has_char (sep : ascii) (s : string) : bool :=
  match s with
  | EmptyString => false
  | String a rest => Ascii.eqb a sep || has_char sep rest
  end.

(** The builtins [int] on a string ([None] for [ValueError]) and [str] on
    an integer. *)
Class Builtins := {
  py_int : string → option Z;
  py_str : Z → string;
}.

(** The object under construction as an exception receives it: [total] is
    set, [start] and [end] are unset ([None]), or set to [None] or to an
    integer. *)
Record PartialContentRange := {
  partial_total : Z;
  partial_start : option (option Z);
  partial_end : option (option Z);
}.

(** The exceptions of [sanic.exceptions] the constructor raises, with their
    message and, for the last two, the object under construction. *)
Inductive RangeFault :=
  | HeaderNotFound (message : string)
  | InvalidRangeType (message : string) (content_range : PartialContentRange)
  | ContentRangeError (message : string) (content_range : PartialContentRange).

(** The slots of a constructed [ContentRangeHandler]. *)
Record ContentRangeHandler := {
  cr_start : Z;
  cr_end : Z;
  cr_size : Z;
  cr_total : Z;
  cr_headers : gmap string string;
}.

Section ContentRange.
Context `{Builtins}.

(** [int(text) if text else None]; the outer [None] is the [ValueError]. *)
Definition int_or_None (text : string) : option (option Z) :=
  match text with
  | EmptyString => Some None
  | _ => match py_int text with Some n => Some (Some n) | None => None end
  end.

(** The constructor from the assignment of [self.start] on. *)
Definition content_range_of_bounds (total : Z) (start_b end_b : string)
    : RangeFault + ContentRangeHandler :=
  let partial s e :=
    {| partial_total := total; partial_start := s; partial_end := e |} in
  match int_or_None start_b with
  | None =>
      inl (ContentRangeError
             (percent_format "'%s' is invalid for Content Range" [start_b])
             (partial None None))
  | Some start =>
  match int_or_None end_b with
  | None =>
      inl (ContentRangeError
             (percent_format "'%s' is invalid for Content Range" [end_b])
             (partial (Some start) None))
  | Some end_ =>
      let finish (start end_ : Z) :=
        if (start >=? end_)%Z then
          inl (ContentRangeError "Invalid for Content Range parameters"
                 (partial (Some (Some start)) (Some (Some end_))))
        else
          inr {| cr_start := start; cr_end := end_;
                 cr_size := end_ - start + 1; cr_total := total;
                 cr_headers :=
                   {[ "Content-Range" :=
                        percent_format "bytes %s-%s/%s"
                          [py_str start; py_str end_; py_str total] ]} |} in
      match end_, start with
      | None, None =>
          inl (ContentRangeError "Invalid for Content Range parameters"
                 (partial (Some None) (Some None)))
      | None, Some start => finish start (total - 1)%Z
      | Some end_, None => finish (total - end_)%Z (total - 1)%Z
      | Some end_, Some start => finish start end_
      end
  end end.

(** *** [ContentRangeHandler.__init__]

    [range_header] is [request.headers.getone("range", None)] and [st_size]
    is [stats.st_size]. *)
Definition ContentRangeHandler__init__ (range_header : option string)
    (st_size : Z) : RangeFault + ContentRangeHandler :=
  let total := st_size in
  match range_header with
  | None => inl (HeaderNotFound "Range Header Not Found")
  | Some _range =>
      let '(unit, _, value) := partition "=" _range in
      let unit := strip unit in
      let value := strip value in
      if negb (String.eqb unit "bytes") then
        inl (InvalidRangeType
               (percent_format "%s is not a valid Range Type" [unit])
               {| partial_total := total; partial_start := None;
                  partial_end := None |})
      else
        let '(start_b, _, end_b) := partition "-" value in
        let start_b := strip start_b in
        let end_b := strip end_b in
        content_range_of_bounds total start_b end_b
  end.

(** The object the constructor builds for given bounds. *)
Definition range_object (start end_ total : Z) : ContentRangeHandler :=
  {| cr_start := start; cr_end := end_; cr_size := end_ - start + 1;
     cr_total := total;
     cr_headers :=
       {[ "Content-Range" :=
            "bytes " +:+ py_str start +:+ "-" +:+ py_str end_ +:+ "/"
              +:+ py_str total ]} |}.

(** The [ContentRangeError] of the final check [start >= end]. *)
Definition bounds_refused (start end_ total : Z) : RangeFault :=
  ContentRangeError "Invalid for Content Range parameters"
    {| partial_total := total; partial_start := Some (Some start);
       partial_end := Some (Some end_) |}.

(** *** [ContentRangeHandler.__bool__] *)
Definition ContentRangeHandler__bool__ (self : ContentRangeHandler) : bool :=
  (cr_size self >? 0)%Z.

End ContentRange.

(** Builtins for the examples: [int] on plain decimal digits, [str] in
    decimal notation. *)
Fixpoint digits_value (acc : Z) (s : string) : option Z :=
  match s with
  | EmptyString => Some acc
  | String a rest =>
      let n := nat_of_ascii a in
      if ((48 <=? n) && (n <=? 57))%nat
      then digits_value (acc * 10 + Z.of_nat (n - 48))%Z rest
      else None
  end.

Global Instance demo_builtins : Builtins := {|
  py_int := λ s, match s with
                 | EmptyString => None
                 | _ => digits_value 0 s
                 end;
  py_str := λ z, NilZero.string_of_int (Z.to_int z);
|}.

(** ** [reloader_helpers._check_file]

    [filename] is a key of the dict [mtimes]; modification times are
    compared with [>] only, here [gt].  [st_mtime] is the result of
    [os.stat(filename).st_mtime], [None] when [os.stat] raises [OSError]. *)
Section Reloader.
Context {Path : Type} `{Countable Path} {Time : Type}.
Variable gt : Time → Time → bool.

Inductive CheckOutcome :=
  | Checked (need_reload : bool)
  | RaisedOSError.

Definition _check_file (st_mtime : option Time) (filename : Path)
    (mtimes : gmap Path Time) : CheckOutcome * gmap Path Time :=
  match st_mtime with
  | None => (RaisedOSError, mtimes)
  | Some mtime =>
      match mtimes !! filename with
      | None => (Checked false, <[filename := mtime]> mtimes)
      | Some old_time =>
          if gt mtime old_time
          then (Checked true, <[filename := mtime]> mtimes)
          else (Checked false, mtimes)
      end
  end.

End Reloader.

(** ** The registry: [add] and [lookup] *)

Ltac unfold_M :=
  unfold eval, exec, mbind, M_bind, mret, M_ret, bind, ret, get_state, modify,
    raise, lift_res, cached_setitem, cached_getitem, dict_contains in *.

Section Registry.
Context `{Hierarchy Cls}.

Implicit Types (self : ErrorHandler Cls) (exception : Exc Cls).
Implicit Types (route_name name : option string) (c : Cls).
Implicit Types (d : gmap (Cls * option string) (option (Handler Cls))).

(** The state after the write [self.cached_handlers[(c, route_name)] = v]. *)
Local Abbreviation cache c route_name v self :=
  (set_cached_handlers (λ d, <[(c, route_name) := v]> d) self).

Lemma dict_get_Some d key h :
  dict_get d key = Some h ↔ d !! key = Some (Some h).
Proof.
  unfold dict_get. destruct (d !! key) as [[h'|]|]; split; congruence.
Qed.

Lemma dict_get_None d key :
  dict_get d key = None ↔ d !! key = None ∨ d !! key = Some None.
Proof.
  unfold dict_get. destruct (d !! key) as [[h'|]|]; split;
    intros; try destruct_or!; try congruence; eauto.
Qed.

Lemma upto_base_head c classes :
  ∃ rest, upto_base (c :: classes) = c :: rest.
Proof. simpl. case_bool_decide; eauto. Qed.

Lemma upto_base_app pre post :
  BaseException ∉ pre →
  upto_base (pre ++ BaseException :: post) = pre ++ [BaseException].
Proof.
  induction pre as [|c pre IH]; simpl; intros Hpre.
  - by rewrite bool_decide_eq_true_2.
  - apply not_elem_of_cons in Hpre as [Hc Hpre].
    rewrite bool_decide_eq_false_2 by done. by rewrite IH.
Qed.

Lemma upto_base_prefix pre a post :
  BaseException ∉ pre →
  ∃ rest, upto_base (pre ++ a :: post) = pre ++ a :: rest.
Proof.
  induction pre as [|c pre IH]; simpl; intros Hpre.
  - case_bool_decide; eauto.
  - apply not_elem_of_cons in Hpre as [Hc Hpre].
    rewrite bool_decide_eq_false_2 by done.
    destruct (IH Hpre) as [rest ->]. eauto.
Qed.

Lemma nearest_app_absent d name pre rest :
  (∀ c, c ∈ pre → d !! (c, name) = None) →
  nearest d name (pre ++ rest) = nearest d name rest.
Proof.
  induction pre as [|c pre IH]; simpl; intros Hpre; [done|].
  rewrite (Hpre c) by apply list_elem_of_here.
  apply IH. intros c' Hc'. apply Hpre. by apply list_elem_of_further.
Qed.

Lemma nearest_absent d name classes :
  (∀ c, c ∈ classes → d !! (c, name) = None) →
  nearest d name classes = None.
Proof.
  intros Hall. rewrite <- (app_nil_r classes).
  by rewrite nearest_app_absent.
Qed.

Lemma only_scope_key d sc c name :
  only_scope d sc → is_Some (d !! (c, name)) → name = sc.
Proof. intros Hsc [v Hv]. apply (Hsc (c, name) v Hv). Qed.

Lemma nearest_other_scope d sc name classes :
  only_scope d sc → name ≠ sc → nearest d name classes = None.
Proof.
  intros Hsc Hne. apply nearest_absent. intros c _.
  destruct (d !! (c, name)) eqn:E; [|done].
  destruct Hne. apply (only_scope_key d sc c); [done|]. by rewrite E.
Qed.

(** The walk over one scope finds the value under the nearest key of the
    chain, writes it under the looked-up key and returns it. *)
Lemma lookup_mro_spec c route_name name classes self :
  lookup_mro c route_name name classes self =
    match nearest (cached_handlers self) name (upto_base classes) with
    | Some v => (Ok (Some v), cache c route_name v self)
    | None => (Ok None, self)
    end.
Proof.
  induction classes as [|a classes IH]; simpl; [done|].
  unfold_M.
  destruct (cached_handlers self !! (a, name)) as [v|] eqn:E.
  - rewrite bool_decide_eq_true_2 by eauto.
    case_bool_decide; simpl; by rewrite E.
  - rewrite bool_decide_eq_false_2 by (by intros [? ?]).
    case_bool_decide; simpl; rewrite E; [done|]. apply IH.
Qed.

Lemma lookup_exact_spec self c route_name :
  lookup_exact self c [route_name; None] =
    match dict_get (cached_handlers self) (c, route_name) with
    | Some h => Some h
    | None => dict_get (cached_handlers self) (c, None)
    end.
Proof.
  simpl. destruct (dict_get _ (c, route_name)); [done|].
  by destruct (dict_get _ (c, None)).
Qed.

(** [lookup] in closed form. *)
Lemma lookup_spec exception route_name self :
  let c := exc_class exception in
  let d := cached_handlers self in
  lookup exception route_name self =
    match dict_get d (c, route_name) with
    | Some h => (Ok (Some h), self)
    | None =>
    match dict_get d (c, None) with
    | Some h => (Ok (Some h), self)
    | None =>
    match nearest d route_name (chain c) with
    | Some v => (Ok v, cache c route_name v self)
    | None =>
    match nearest d None (chain c) with
    | Some v => (Ok v, cache c route_name v self)
    | None => (Ok None, cache c route_name None self)
    end end end end.
Proof.
  intros c d. unfold lookup. fold c.
  change (mbind ?f ?m) with (bind m f). unfold bind at 1, get_state.
  rewrite lookup_exact_spec. fold d.
  destruct (dict_get d (c, route_name)); [done|].
  destruct (dict_get d (c, None)); [done|].
  unfold lookup_names, mbind, M_bind, bind.
  rewrite lookup_mro_spec. fold d. fold (chain c).
  destruct (nearest d route_name (chain c)); [done|].
  rewrite lookup_mro_spec. fold d. fold (chain c).
  by destruct (nearest d None (chain c)).
Qed.

Lemma for_each_setitem c (h : Handler Cls) routes self :
  for_each routes (λ route, cached_setitem (c, Some route) (Some h)) self =
    (Ok tt,
     set_cached_handlers
       (λ d, foldl (λ d route, <[(c, Some route) := Some h]> d) d routes) self).
Proof.
  revert self. induction routes as [|route routes IH]; intros self; simpl.
  - by destruct self.
  - unfold_M. simpl. by rewrite IH.
Qed.

Lemma foldl_insert_other c c' (h : Handler Cls) routes name d :
  c' ≠ c →
  foldl (λ d route, <[(c, Some route) := Some h]> d) d routes !! (c', name)
    = d !! (c', name).
Proof.
  intros Hne. revert d.
  induction routes as [|route routes IH]; intros d; simpl; [done|].
  rewrite IH. apply lookup_insert_ne. congruence.
Qed.

(** [add] leaves the entries of every other class alone. *)
Lemma add_other_class c c' (h : Handler Cls) route_names name self :
  c' ≠ c →
  cached_handlers (exec (add c h route_names) self) !! (c', name)
    = cached_handlers self !! (c', name).
Proof.
  intros Hne. unfold add, exec, mbind, M_bind, bind, modify.
  destruct route_names as [[|route routes]|].
  - simpl. apply lookup_insert_ne. congruence.
  - rewrite for_each_setitem. simpl.
    rewrite foldl_insert_other by done. apply lookup_insert_ne. congruence.
  - simpl. apply lookup_insert_ne. congruence.
Qed.

Lemma add_scopes_of c (h : Handler Cls) route_name self :
  cached_handlers (exec (add c h (scopes_of route_name)) self)
    = <[(c, route_name) := Some h]> (cached_handlers self).
Proof. by destruct route_name. Qed.

(** C10: [add] with an empty collection of route names behaves exactly
    like [add] without route names: the handler is appended to
    [self.handlers], the single global entry [(exception, None)] is
    written, and no entry [(exception, route)] is created or changed. *)
Theorem add_empty_route_names exception_type (handler : Handler Cls) self :
  add exception_type handler (Some []) self
    = add exception_type handler None self ∧
  add exception_type handler (Some []) self =
    (Ok tt,
     {| handlers := handlers self ++ [(exception_type, handler)];
        cached_handlers :=
          <[(exception_type, None) := Some handler]> (cached_handlers self);
        debug := debug self; fallback := fallback self; base := base self |}) ∧
  ∀ c route,
    cached_handlers (exec (add exception_type handler (Some [])) self)
      !! (c, Some route) = cached_handlers self !! (c, Some route).
Proof.
  split; [done|]. split; [done|].
  intros c route. unfold_M. simpl. by rewrite lookup_insert_ne.
Qed.

(** C8: [lookup] returns normally for every exception instance and every
    optional route name: the outcome is a value (a handler or [None]),
    never a raised exception; and a [None] outcome leaves [None] stored
    under the looked-up key, the cached absence. *)
Theorem lookup_never_raises exception route_name self :
  ∃ handler self',
    lookup exception route_name self = (Ok handler, self') ∧
    (handler = None →
     cached_handlers self' !! (exc_class exception, route_name) = Some None).
Proof.
  rewrite lookup_spec.
  destruct (dict_get _ (_, route_name)).
  { do 2 eexists. split; [done|]. intros [=]. }
  destruct (dict_get _ (_, None)).
  { do 2 eexists. split; [done|]. intros [=]. }
  destruct (nearest _ route_name _) as [v|].
  { do 2 eexists. split; [done|]. intros ->. simpl. apply lookup_insert_eq. }
  destruct (nearest _ None _) as [v|].
  { do 2 eexists. split; [done|]. intros ->. simpl. apply lookup_insert_eq. }
  do 2 eexists. split; [done|]. intros _. simpl. apply lookup_insert_eq.
Qed.

(** C7: after [add(T, H1, [routeA])] and [add(T, H2)], looking up an
    instance of [T] with route name [routeA] returns [H1]; with no route
    name it returns [H2]; and with another route name [routeB], under which
    the table holds no handler for [T], it returns [H2].  None of these
    lookups changes the registry. *)
Theorem lookup_route_scope_precedence self exception (h1 h2 : Handler Cls)
    (routeA routeB : string) :
  routeB ≠ routeA →
  dict_get (cached_handlers self) (exc_class exception, Some routeB) = None →
  let T := exc_class exception in
  let self' := exec (add T h1 (Some [routeA]);; add T h2 None) self in
  lookup exception (Some routeA) self' = (Ok (Some h1), self') ∧
  lookup exception (Some routeB) self' = (Ok (Some h2), self') ∧
  lookup exception None self' = (Ok (Some h2), self').
Proof.
  intros Hne HB T self'.
  assert (HA : cached_handlers self' !! (T, Some routeA) = Some (Some h1)).
  { subst self'. unfold_M. simpl.
    rewrite lookup_insert_ne by done. apply lookup_insert_eq. }
  assert (HN : cached_handlers self' !! (T, None) = Some (Some h2)).
  { subst self'. unfold_M. simpl. apply lookup_insert_eq. }
  assert (HB' : dict_get (cached_handlers self') (T, Some routeB) = None).
  { subst self'. unfold_M. unfold dict_get. simpl.
    rewrite !lookup_insert_ne by congruence. apply HB. }
  apply dict_get_Some in HA, HN.
  repeat split; rewrite lookup_spec; fold T.
  - by rewrite HA.
  - by rewrite HB', HN.
  - by rewrite HN.
Qed.

(** C4 (as the code behaves): when a lookup of [(T, route_name)] has
    missed, [None] is stored under that key; an [add] of a handler for the
    same class and scope overwrites it, and the next lookup of the pair
    returns the new handler.  The stored absence shadows a later [add] only
    when that registers another class, such as an ancestor of [T]. *)
Theorem add_overwrites_cached_absence self exception route_name
    (h : Handler Cls) :
  eval (lookup exception route_name) self = Ok None →
  let T := exc_class exception in
  let self1 := exec (lookup exception route_name) self in
  cached_handlers self1 !! (T, route_name) = Some None ∧
  eval (lookup exception route_name)
       (exec (add T h (scopes_of route_name)) self1) = Ok (Some h) ∧
  ∀ c route_names,
    c ≠ T →
    eval (lookup exception route_name) (exec (add c h route_names) self1)
      = Ok None.
Proof.
  intros Hmiss T self1.
  assert (Hself1 : self1 = cache T route_name None self ∧
                   dict_get (cached_handlers self) (T, None) = None).
  { subst self1. unfold eval, exec in *. rewrite lookup_spec in *. fold T in Hmiss |- *.
    destruct (dict_get _ (T, route_name)); [done|].
    destruct (dict_get _ (T, None)); [done|].
    destruct (nearest _ route_name _) as [v|]; simpl in *; [by simplify_eq|].
    destruct (nearest _ None _) as [v|]; simpl in *; by simplify_eq. }
  destruct Hself1 as [Hself1 HN].
  assert (Hkey : cached_handlers self1 !! (T, route_name) = Some None).
  { rewrite Hself1. simpl. apply lookup_insert_eq. }
  split; [done|]. split.
  - unfold eval. rewrite lookup_spec. fold T.
    rewrite add_scopes_of.
    assert (dict_get (<[(T, route_name) := Some h]> (cached_handlers self1))
              (T, route_name) = Some h) as ->; [|done].
    apply dict_get_Some, lookup_insert_eq.
  - intros c route_names Hc.
    set (self2 := exec (add c h route_names) self1).
    assert (Hsame : ∀ name, cached_handlers self2 !! (T, name)
                            = cached_handlers self1 !! (T, name)).
    { intros name. by apply add_other_class. }
    unfold eval. rewrite lookup_spec. fold T.
    assert (dict_get (cached_handlers self2) (T, route_name) = None) as ->.
    { apply dict_get_None. right. by rewrite Hsame. }
    assert (dict_get (cached_handlers self2) (T, None) = None) as ->.
    { unfold dict_get. rewrite Hsame, Hself1. simpl.
      destruct (decide (route_name = None)) as [->|Hrn].
      - by rewrite lookup_insert_eq.
      - rewrite lookup_insert_ne by congruence. apply HN. }
    destruct (upto_base_head T (ancestors T)) as [rest Hchain].
    unfold chain, mro. rewrite Hchain. simpl.
    by rewrite Hsame, Hkey.
Qed.


(** With every key of the table in one scope, and that scope visible to
    the lookup, the result is the value under the nearest key of the
    chain. *)
Lemma lookup_single_scope self exception route_name sc :
  only_scope (cached_handlers self) sc →
  sc = route_name ∨ sc = None →
  eval (lookup exception route_name) self =
    Ok (mjoin (nearest (cached_handlers self) sc
                 (chain (exc_class exception)))).
Proof.
  intros Hsc Hvis. unfold eval. rewrite lookup_spec.
  set (T := exc_class exception). set (d := cached_handlers self) in *.
  destruct (upto_base_head T (ancestors T)) as [rest Hchain].
  fold (mro T) in Hchain. fold (chain T) in Hchain.
  assert (Hhead : ∀ name, nearest d name (chain T) =
            match d !! (T, name) with
            | Some v => Some v | None => nearest d name rest end).
  { intros name. by rewrite Hchain. }
  destruct (decide (sc = route_name)) as [->|Hne].
  - rewrite (Hhead route_name). unfold dict_get at 1.
    destruct (d !! (T, route_name)) as [[h|]|] eqn:E; simpl; [done| |].
    + destruct (dict_get d (T, None)) eqn:EN.
      * apply dict_get_Some in EN.
        assert (None = route_name) as <-
          by (apply (only_scope_key d route_name T); [done|]; by rewrite EN).
        congruence.
      * done.
    + destruct (dict_get d (T, None)) eqn:EN.
      * apply dict_get_Some in EN.
        assert (None = route_name) as <-
          by (apply (only_scope_key d route_name T); [done|]; by rewrite EN).
        congruence.
      * destruct (nearest d route_name rest) as [v|] eqn:ER; [done|].
        destruct (decide (route_name = None)) as [->|Hrn].
        -- by rewrite Hhead, E, ER.
        -- by rewrite (nearest_other_scope d route_name None) by done.
  - destruct Hvis as [?| ->]; [done|].
    assert (d !! (T, route_name) = None) as Habs.
    { destruct (d !! (T, route_name)) eqn:E; [|done].
      destruct Hne. symmetry.
      apply (only_scope_key d None T); [done|]. by rewrite E. }
    unfold dict_get at 1. rewrite Habs.
    rewrite (nearest_other_scope d None route_name) by done.
    rewrite (Hhead None). unfold dict_get.
    destruct (d !! (T, None)) as [[h|]|]; simpl; [done|done|].
    by destruct (nearest d None rest).
Qed.

(** On a table all of whose keys, stored by [add] or by an earlier
    [lookup], lie in scope [sc], a lookup made with that scope (or any
    lookup, when the scope is the global one) returns the handler stored
    under the exact runtime type; otherwise the value stored under the
    first class of the MRO that is a key, [BaseException] being the last
    class consulted. *)
Lemma lookup_single_scope_keys self exception route_name sc :
  only_scope (cached_handlers self) sc →
  sc = route_name ∨ sc = None →
  let T := exc_class exception in
  let d := cached_handlers self in
  let result := eval (lookup exception route_name) self in
  (∀ h, d !! (T, sc) = Some (Some h) → result = Ok (Some h)) ∧
  (∀ pre a post h,
     mro T = pre ++ a :: post → BaseException ∉ pre →
     (∀ c, c ∈ pre → d !! (c, sc) = None) →
     d !! (a, sc) = Some (Some h) → result = Ok (Some h)) ∧
  (∀ pre post,
     mro T = pre ++ BaseException :: post → BaseException ∉ pre →
     (∀ c, c ∈ pre ++ [BaseException] → d !! (c, sc) = None) →
     result = Ok None).
Proof.
  intros Hsc Hvis T d result. subst result.
  rewrite (lookup_single_scope _ _ _ sc) by done. fold T d.
  repeat split.
  - intros h Hh.
    destruct (upto_base_head T (ancestors T)) as [rest Hchain].
    unfold chain, mro. rewrite Hchain. simpl. by rewrite Hh.
  - intros pre a post h Hmro Hpre Habs Ha.
    destruct (upto_base_prefix pre a post Hpre) as [rest Hchain].
    unfold chain. rewrite Hmro, Hchain.
    rewrite nearest_app_absent by done. simpl. by rewrite Ha.
  - intros pre post Hmro Hpre Habs.
    unfold chain. rewrite Hmro, upto_base_app by done.
    by rewrite nearest_absent.
Qed.

Lemma nearest_fmap (entries : gmap (Cls * option string) (Handler Cls))
    name classes :
  nearest (Some <$> entries) name classes
    = Some <$> first_entry entries name classes.
Proof.
  induction classes as [|c classes IH]; simpl; [done|].
  rewrite lookup_fmap. by destruct (entries !! (c, name)).
Qed.

(** On a table that holds the registered entries and nothing else, the
    code's [lookup] returns what the cache-free resolution returns. *)
Lemma lookup_fresh_uncached
    (entries : gmap (Cls * option string) (Handler Cls))
    self exception route_name :
  cached_handlers self = Some <$> entries →
  eval (lookup exception route_name) self
    = Ok (resolve_uncached entries exception route_name).
Proof.
  intros Hd. unfold eval, resolve_uncached. rewrite lookup_spec.
  set (T := exc_class exception). rewrite Hd.
  unfold dict_get. rewrite !lookup_fmap.
  destruct (entries !! (T, route_name)) eqn:ER; simpl; [done|].
  destruct (entries !! (T, None)) eqn:EN; simpl; [done|].
  destruct (upto_base_head T (ancestors T)) as [rest Hchain].
  fold (mro T) in Hchain. fold (chain T) in Hchain.
  rewrite !nearest_fmap, Hchain. simpl. rewrite ER, EN.
  destruct (first_entry entries route_name rest); simpl; [done|].
  by destruct (first_entry entries None rest).
Qed.

End Registry.

(** ** The dispatch guard: [log], [default] and [response] *)

Section Dispatch.
Context `{Hierarchy Cls} `{!Collaborators Cls}.

Implicit Types (self : ErrorHandler Cls) (exception e : Exc Cls).
Implicit Types (w : World Cls) (request : option Request).
Implicit Types (s t u : string).

Lemma string_app_assoc s t u : (s +:+ t) +:+ u = s +:+ t +:+ u.
Proof.
  induction s as [|a s IH]; [done|].
  change (String a ((s +:+ t) +:+ u) = String a (s +:+ t +:+ u)).
  by f_equal.
Qed.

Lemma string_app_nil_r s : s +:+ EmptyString = s.
Proof.
  induction s as [|a s IH]; [done|].
  change (String a (s +:+ EmptyString) = String a s). by f_equal.
Qed.

Lemma response_message_format s u :
  percent_format response_message [s; u] =
    ("Exception raised in exception handler " +:+ dquote) +:+ s +:+
    (dquote +:+ " for uri: ") +:+ u.
Proof. rewrite <- (string_app_nil_r u) at 2. reflexivity. Qed.

Lemma response_message_contains s u :
  contains s (percent_format response_message [s; u]) ∧
  contains u (percent_format response_message [s; u]).
Proof.
  rewrite response_message_format. split.
  - by eexists _, _.
  - exists (("Exception raised in exception handler " +:+ dquote) +:+ s +:+
            (dquote +:+ " for uri: ")), EmptyString.
    by rewrite string_app_nil_r, !string_app_assoc.
Qed.

(** [lookup] touches nothing but the table. *)
Lemma lookup_debug exception route_name self :
  debug (exec (lookup exception route_name) self) = debug self.
Proof.
  unfold exec. rewrite lookup_spec.
  repeat match goal with |- context [match ?x with _ => _ end] =>
    destruct x end; done.
Qed.

Lemma on_self_lookup exception route_name w :
  on_self (_lookup exception route_name) w =
    (eval (lookup exception route_name) (eh w),
     {| eh := exec (lookup exception route_name) (eh w);
        error_logger := error_logger w |}).
Proof.
  unfold on_self, _lookup, _full_lookup, eval, exec.
  by destruct (lookup exception route_name (eh w)).
Qed.

Lemma AttributeError_caught :
  isinstance {| exc_class := AttributeError; exc_quiet := None |} Exception
    = true.
Proof.
  apply bool_decide_eq_true_2, list_elem_of_further,
    AttributeError_Exception.
Qed.

Lemma app_singleton_ne {A} (l : list A) (x : A) : l ++ [x] ≠ l.
Proof.
  intros Heq. apply (f_equal length) in Heq.
  rewrite length_app in Heq. simpl in Heq. lia.
Qed.

(** C9: on the default path, with the exception's [quiet] attribute and
    the [NOISY_EXCEPTIONS] configuration attribute both booleans (false
    when absent), [log] appends one record to the error logger if the
    exception is not quiet or the override is set, and appends nothing
    otherwise; [default] logs exactly what [log] does. *)
Theorem log_policy (req : Request) exception w (quiet noisy : bool) :
  flag_value (exc_quiet exception) quiet →
  flag_value (req_NOISY_EXCEPTIONS req) noisy →
  let entry := {| log_msg := "Exception occurred while handling uri: %s";
                  log_args := [url_or_unknown (Some req)] |} in
  let produced := if negb quiet || noisy then [entry] else [] in
  log (Some req) exception w =
    (Ok tt, {| eh := eh w; error_logger := error_logger w ++ produced |}) ∧
  error_logger (exec (default (Some req) exception) w)
    = error_logger w ++ produced ∧
  (error_logger (exec (log (Some req) exception) w) ≠ error_logger w
     ↔ quiet = false ∨ noisy = true).
Proof.
  intros Hq Hn entry produced.
  assert (Hcond :
    is_False (getattr_default (exc_quiet exception) (PyBool false))
    || is_True (getattr_default (req_NOISY_EXCEPTIONS req) (PyBool false))
    = negb quiet || noisy).
  { destruct quiet, noisy, Hq as [Hq|[Hq ?]], Hn as [Hn|[Hn ?]];
      by rewrite Hq, Hn. }
  assert (Hlog : log (Some req) exception w =
    (Ok tt, {| eh := eh w; error_logger := error_logger w ++ produced |})).
  { unfold log. rewrite Hcond. subst produced.
    destruct (negb quiet || noisy); [done|].
    unfold_M. rewrite app_nil_r. by destruct w. }
  split; [done|]. split.
  - unfold default, exec, mbind, M_bind, bind. rewrite Hlog.
    unfold get_state, lift_res. done.
  - unfold exec. rewrite Hlog. simpl. subst produced.
    destruct quiet, noisy; simpl; rewrite ?app_nil_r; split;
      try (intros []; congruence); try done; eauto;
      intros _; apply app_singleton_ne.
Qed.

(** The route name [response] looks the exception up with. *)
Local Abbreviation route_name_of request :=
  (match request with Some req => req_name req | None => None end).

(** The world in which the [try] block of [response] runs. *)
Local Abbreviation after_lookup request exception w :=
  {| eh := exec (lookup exception (route_name_of request)) (eh w);
     error_logger := error_logger w |}.

(** The [except Exception] block, when a handler with a [__name__] had
    been resolved: it logs and answers with status 500. *)
Lemma response_except_handler request (h : Handler Cls) name w :
  h_name h = Some name →
  response_except request (Some h) w =
    (Ok (if debug (eh w)
         then text (percent_format response_message
                      [name; url_or_unknown request]) 500
         else text "An error occurred while handling an error" 500),
     {| eh := eh w;
        error_logger := error_logger w ++
          [{| log_msg := response_message;
              log_args := [name; url_or_unknown request] |}] |}).
Proof.
  intros Hname.
  unfold response_except, getattr___name__, logger_exception.
  rewrite Hname. unfold_M.
  cbn [eh]. by destruct (debug (eh w)).
Qed.

(** The [except Exception] block, when no handler had been resolved or the
    handler has no [__name__]: reading the name raises, before anything is
    logged. *)
Lemma response_except_nameless request (handler : option (Handler Cls)) w :
  handler ≫= h_name = None →
  response_except request handler w =
    (Raise {| exc_class := AttributeError; exc_quiet := None |}, w).
Proof.
  intros Hname. unfold response_except, getattr___name__.
  destruct handler as [h|]; simpl in Hname; [rewrite Hname|]; by unfold_M.
Qed.

Lemma response_unfold request exception w handler :
  eval (lookup exception (route_name_of request)) (eh w) = Ok handler →
  response request exception w =
    try_except (response_try request exception handler)
      (λ e, isinstance e Exception)
      (λ _, response_except request handler)
      (after_lookup request exception w).
Proof.
  intros Hfound. unfold response, mbind, M_bind, bind.
  by rewrite on_self_lookup, Hfound.
Qed.

(** Every exception leaving the default path is an instance of
    [Exception] when those of the renderer are. *)
Lemma default_raises request exception w e w' :
  (∀ e dbg bs fb, exception_response request exception dbg bs fb = Raise e →
                  isinstance e Exception = true) →
  default request exception w = (Raise e, w') →
  isinstance e Exception = true.
Proof.
  intros Hrender. unfold default, mbind, M_bind, bind.
  destruct (log request exception w) as [[[]|e0] w0] eqn:Hlog.
  - unfold get_state, lift_res. intros [= Hr _]. by eapply Hrender.
  - intros [= <- _]. unfold log in Hlog.
    destruct request as [req|].
    + destruct (is_False _ || is_True _); by unfold_M.
    + injection Hlog as <- _. apply AttributeError_caught.
Qed.

(** [response] when the looked-up handler is [h] and calling it raises an
    instance of [Exception]. *)
Lemma response_handler_raises request exception w (h : Handler Cls) e name :
  eval (lookup exception (route_name_of request)) (eh w) = Ok (Some h) →
  h_call h request exception = Raise e →
  isinstance e Exception = true →
  h_name h = Some name →
  eval (response request exception) w =
    Ok (if debug (eh w)
        then text (percent_format response_message
                     [name; url_or_unknown request]) 500
        else text "An error occurred while handling an error" 500).
Proof.
  intros Hfound Hcall Hcaught Hname.
  unfold eval. rewrite (response_unfold _ _ _ _ Hfound).
  unfold try_except, response_try, mbind, M_bind, bind, lift_res.
  rewrite Hcall, Hcaught, (response_except_handler _ _ name) by done.
  cbn [eh fst]. by rewrite lookup_debug.
Qed.

(** C5 (as the code behaves): when a handler that carries a [__name__]
    was resolved and calling it raises an instance of [Exception],
    [response] returns a response with status 500; in debug mode its body
    contains the handler's name and the URL text ([repr] of the URL, or
    [unknown] when the request has none); otherwise its body is exactly the
    generic text, the same for every handler name and URL. *)
Theorem response_double_fault request exception w (h : Handler Cls) e name :
  eval (lookup exception (route_name_of request)) (eh w) = Ok (Some h) →
  h_call h request exception = Raise e →
  isinstance e Exception = true →
  h_name h = Some name →
  ∃ resp,
    eval (response request exception) w = Ok resp ∧
    resp_status resp = 500%Z ∧
    (debug (eh w) = true →
       contains name (resp_body resp) ∧
       (∀ u, request ≫= req_url = Some u →
             contains (repr u) (resp_body resp)) ∧
       (request ≫= req_url = None → contains "unknown" (resp_body resp))) ∧
    (debug (eh w) = false →
       resp_body resp = "An error occurred while handling an error").
Proof.
  intros Hfound Hcall Hcaught Hname.
  rewrite (response_handler_raises _ _ _ h e name) by done.
  eexists. split; [reflexivity|].
  destruct (debug (eh w)); unfold text; cbn [resp_body resp_status].
  - split; [done|]. split; [|done]. intros _.
    destruct (response_message_contains name (url_or_unknown request))
      as [Hbody Hurl].
    split; [done|]. unfold url_or_unknown in *.
    split.
    + intros u Hu. by rewrite Hu in *.
    + intros Hu. by rewrite Hu in *.
  - split; [done|]. by split.
Qed.

(** C2 (as the code behaves): [response] returns a response, for a
    present or an absent request, when a handler that carries a [__name__]
    is resolved and every exception raised by that handler or by the
    renderer of the default path is an instance of [Exception]; when no
    handler is resolved, it returns the response of the default path
    whenever that path returns; and, whatever was resolved, it returns the
    response of the [try] block whenever that block returns one. *)
Theorem response_contains_Exception_faults request exception w :
  let found := eval (lookup exception (route_name_of request)) (eh w) in
  (∀ h e, found = Ok (Some h) →
          h_call h request exception = Raise e →
          isinstance e Exception = true) →
  (∀ e dbg bs fb, exception_response request exception dbg bs fb = Raise e →
                  isinstance e Exception = true) →
  (∀ h name, found = Ok (Some h) → h_name h = Some name →
        ∃ resp, eval (response request exception) w = Ok resp) ∧
  (∀ resp, found = Ok None →
           eval (default request exception)
                (after_lookup request exception w) = Ok resp →
           eval (response request exception) w = Ok resp) ∧
  (∀ handler resp, found = Ok handler →
           eval (response_try request exception handler)
                (after_lookup request exception w) = Ok resp →
           eval (response request exception) w = Ok resp).
Proof.
  intros found Hhandler Hrender. subst found.
  assert (Htry : ∀ handler resp,
    eval (lookup exception (route_name_of request)) (eh w) = Ok handler →
    eval (response_try request exception handler)
         (after_lookup request exception w) = Ok resp →
    eval (response request exception) w = Ok resp).
  { intros handler resp Hfound Hresp.
    unfold eval in *. rewrite (response_unfold _ _ _ _ Hfound).
    unfold try_except.
    destruct (response_try request exception handler _) as [[r|e] w'];
      simpl in *; by simplify_eq. }
  split; [|split; [|exact Htry]].
  - intros h name Hfound Hname.
    destruct (h_call h request exception) as [[r|]|e] eqn:Hcall.
    + (* the handler returns a response *)
      exists r. unfold eval. rewrite (response_unfold _ _ _ _ Hfound).
      unfold try_except, response_try, mbind, M_bind, bind, lift_res.
      by rewrite Hcall.
    + (* the handler returns None: the default path runs *)
      unfold eval. rewrite (response_unfold _ _ _ _ Hfound).
      unfold try_except, response_try, mbind, M_bind, bind, lift_res.
      rewrite Hcall.
      destruct (default request exception _) as [[r|e] w'] eqn:Hd;
        [by eauto|].
      rewrite (default_raises _ _ _ _ _ Hrender Hd).
      rewrite (response_except_handler _ _ name) by done. eauto.
    + (* the handler raises *)
      eexists. apply (response_handler_raises _ _ _ h e name); eauto.
  - intros resp Hfound Hdefault. apply (Htry None); [done|].
    unfold eval in *. unfold response_try, mbind, M_bind, bind.
    unfold mret at 1, M_ret, ret.
    destruct (default request exception _) as [[r|e] w'] eqn:Hd;
      simpl in *; by simplify_eq.
Qed.

End Dispatch.

(** ** The properties on the concrete hierarchy *)

Section Concrete.

Local Abbreviation c := (instance_of c_C).




(** C3, failing input: after [add(B, H2)] the cache-free resolution of a
    [C] instance on route ["r"] is [H2], and so is the first lookup on the
    fresh registry; but once an [A] instance has been looked up on route
    ["r"], the same lookup returns [None]; and after a further lookup of a
    [C] instance without route it returns [H2] again: the results depend on
    the lookups made before, and the same pair is answered differently. *)
Theorem lookup_cache_diverges_from_uncached :
  cached_handlers registry_B = Some <$> entries_B ∧
  resolve_uncached entries_B c (Some "r") = Some H2 ∧
  eval (lookup c (Some "r")) registry_B = Ok (Some H2) ∧
  let self1 := exec (lookup (instance_of c_A) (Some "r")) registry_B in
  eval (lookup c (Some "r")) self1 = Ok None ∧
  let self2 := exec (lookup c (Some "r")) self1 in
  let self3 := exec (lookup c None) self2 in
  eval (lookup c (Some "r")) self3 = Ok (Some H2).
Proof. repeat split; by vm_compute. Qed.

(** C6, failing input.  With handlers for [A] and [B] only, a lookup of a
    [C] instance on route ["r"] returns the handler [H2] of the nearest
    registered ancestor [B]; once an [Exception] instance has been looked
    up on route ["r"], the same lookup returns [None]: the walk stops at
    the key [(Exception, "r")] that the earlier lookup stored, before the
    global scope, where [B] is registered, is walked.  And with every key
    in the global scope: for [class Y(X, Z)] with a handler [HZ] for [Z]
    only, a lookup of a [Y] instance returns [HZ], but after a lookup of
    an [X] instance it returns [None], the value stored under [X], which
    precedes [Z] in the MRO of [Y] and has no registered handler. *)
Theorem lookup_specificity_broken_by_memo :
  cached_handlers registry_A_B = Some <$> entries_A_B ∧
  eval (lookup c (Some "r")) registry_A_B = Ok (Some H2) ∧
  (let self1 :=
     exec (lookup (instance_of c_Exception) (Some "r")) registry_A_B in
   handlers self1 = [(c_A, H1); (c_B, H2)] ∧
   cached_handlers self1 !! (c_Exception, Some "r") = Some None ∧
   eval (lookup c (Some "r")) self1 = Ok None) ∧
  mro c_Y = [c_Y; c_X; c_Z; c_Exception; c_BaseException; c_object] ∧
  eval (lookup (instance_of c_Y) None) registry_Z = Ok (Some HZ) ∧
  (let self1 := exec (lookup (instance_of c_X) None) registry_Z in
   handlers self1 = [(c_Z, HZ)] ∧
   only_scope (cached_handlers self1) None ∧
   cached_handlers self1 !! (c_X, None) = Some None ∧
   cached_handlers self1 !! (c_Z, None) = Some (Some HZ) ∧
   eval (lookup (instance_of c_Y) None) self1 = Ok None).
Proof.
  split; [by vm_compute|]. split; [by vm_compute|].
  split; [repeat split; by vm_compute|].
  split; [reflexivity|]. split; [by vm_compute|].
  split; [by vm_compute|].
  split; [apply (bool_decide_unpack _); by vm_compute|].
  repeat split; by vm_compute.
Qed.

(** C4, counterexample: a miss for [(C, "r")] is cached, then
    [add(C, H1, ["r"])] is called; the next lookup of the pair returns
    [H1], not the cached absence. *)
Lemma late_add_same_key_not_shadowed :
  let self1 := exec (lookup c (Some "r")) fresh in
  eval (lookup c (Some "r")) fresh = Ok None ∧
  cached_handlers self1 !! (c_C, Some "r") = Some None ∧
  let self2 := exec (add c_C H1 (Some ["r"])) self1 in
  eval (lookup c (Some "r")) self2 = Ok (Some H1) ∧
  eval (lookup c (Some "r")) self2 ≠ Ok None.
Proof.
  split; [by vm_compute|]. split; [by vm_compute|].
  assert (Hres : eval (lookup c (Some "r"))
                   (exec (add c_C H1 (Some ["r"]))
                      (exec (lookup c (Some "r")) fresh)) = Ok (Some H1))
    by (by vm_compute).
  split; [done|]. rewrite Hres. intros [=].
Qed.

Lemma add_overwrites_cached_absence_witness :
  eval (lookup c (Some "r")) fresh = Ok None ∧
  eval (lookup c (Some "r"))
       (exec (add c_C H1 (Some ["r"])) (exec (lookup c (Some "r")) fresh))
    = Ok (Some H1).
Proof.
  assert (Hmiss : eval (lookup c (Some "r")) fresh = Ok None)
    by (vm_compute; reflexivity).
  split; [exact Hmiss|].
  destruct (add_overwrites_cached_absence fresh c (Some "r") H1 Hmiss)
    as (_ & Hnew & _).
  exact Hnew.
Defined.

Lemma lookup_route_scope_precedence_witness :
  "routeB" ≠ "routeA" ∧
  dict_get (cached_handlers fresh) (c_C, Some "routeB") = None ∧
  let self' := exec (add c_C H1 (Some ["routeA"]);; add c_C H2 None) fresh in
  lookup c (Some "routeA") self' = (Ok (Some H1), self') ∧
  lookup c (Some "routeB") self' = (Ok (Some H2), self') ∧
  lookup c None self' = (Ok (Some H2), self').
Proof.
  assert (Hne : "routeB" ≠ "routeA") by (intros [=]).
  split; [exact Hne|]. split; [reflexivity|].
  exact (lookup_route_scope_precedence fresh c H1 H2 "routeA" "routeB"
           Hne eq_refl).
Defined.

Local Abbreviation request := (Some (demo_request None)).
Local Abbreviation on_error := (raising_handler "on_error" c_KeyError).
Local Abbreviation interrupted :=
  (raising_handler "on_error" c_KeyboardInterrupt).

Lemma log_policy_witness :
  flag_value (exc_quiet quiet_exception) true ∧
  flag_value (req_NOISY_EXCEPTIONS (demo_request None)) false ∧
  log request quiet_exception (world fresh) = (Ok tt, world fresh).
Proof.
  assert (Hq : flag_value (exc_quiet quiet_exception) true)
    by (left; reflexivity).
  assert (Hn : flag_value (req_NOISY_EXCEPTIONS (demo_request None)) false)
    by (right; split; reflexivity).
  split; [exact Hq|]. split; [exact Hn|].
  exact (proj1 (log_policy (demo_request None) quiet_exception (world fresh)
                  true false Hq Hn)).
Defined.

(** C5, counterexample: a resolved handler that raises
    [KeyboardInterrupt], which is not an [Exception], makes [response]
    raise instead of returning a response with status 500; a resolved
    callable without [__name__] that raises a [KeyError] makes the except
    block raise [AttributeError], again no response; and outside debug mode
    the generic body does contain the name of a failing handler called
    [error]. *)
Lemma response_double_fault_escapes :
  let w := world (registry_C interrupted) in
  eval (lookup c None) (eh w) = Ok (Some interrupted) ∧
  h_call interrupted request c = Raise (instance_of c_KeyboardInterrupt) ∧
  eval (response request c) w = Raise (instance_of c_KeyboardInterrupt) ∧
  let nameless := nameless_handler c_KeyError in
  let w0 := world (registry_C nameless) in
  eval (lookup c None) (eh w0) = Ok (Some nameless) ∧
  h_call nameless request c = Raise (instance_of c_KeyError) ∧
  isinstance (instance_of c_KeyError) Exception = true ∧
  eval (response request c) w0
    = Raise {| exc_class := c_AttributeError; exc_quiet := None |} ∧
  let h := raising_handler "error" c_KeyError in
  let w' := world (registry_C h) in
  eval (lookup c None) (eh w') = Ok (Some h) ∧
  debug (eh w') = false ∧
  h_name h = Some "error" ∧
  ∃ resp, eval (response request c) w' = Ok resp ∧
          contains "error" (resp_body resp).
Proof.
  split; [by vm_compute|]. split; [done|]. split; [by vm_compute|].
  split; [by vm_compute|]. split; [done|]. split; [by vm_compute|].
  split; [by vm_compute|].
  split; [by vm_compute|]. split; [done|]. split; [done|].
  eexists. split; [by vm_compute|].
  by exists "An ", " occurred while handling an error".
Qed.

Lemma response_double_fault_witness :
  let w := world (set_debug true (registry_C on_error)) in
  eval (lookup c None) (eh w) = Ok (Some on_error) ∧
  h_call on_error request c = Raise (instance_of c_KeyError) ∧
  isinstance (instance_of c_KeyError) Exception = true ∧
  h_name on_error = Some "on_error" ∧
  ∃ resp, eval (response request c) w = Ok resp ∧
          resp_status resp = 500%Z ∧
          contains "on_error" (resp_body resp) ∧
          contains (repr "http://localhost/x") (resp_body resp).
Proof.
  intros w.
  assert (Hfound : eval (lookup c None) (eh w) = Ok (Some on_error))
    by (vm_compute; reflexivity).
  assert (Hcaught : isinstance (instance_of c_KeyError) Exception = true)
    by (vm_compute; reflexivity).
  split; [exact Hfound|]. split; [reflexivity|]. split; [exact Hcaught|].
  split; [reflexivity|].
  destruct (response_double_fault request c w on_error
              (instance_of c_KeyError) "on_error" Hfound eq_refl Hcaught
              eq_refl)
    as (resp & Hresp & Hstatus & Hdebug & _).
  destruct (Hdebug eq_refl) as (Hname & Hurl & _).
  exists resp. repeat split; [exact Hresp|exact Hstatus|exact Hname|].
  exact (Hurl "http://localhost/x" eq_refl).
Defined.

(** C2, counterexample: [response] raises when the resolved handler
    raises [KeyboardInterrupt]; it raises [AttributeError] when the resolved
    handler is a callable without [__name__] that raises a [KeyError]; and
    it raises [AttributeError] for an absent request when no handler is
    registered. *)
Lemma response_can_raise :
  eval (response request c) (world (registry_C interrupted))
    = Raise (instance_of c_KeyboardInterrupt) ∧
  eval (response request c) (world (registry_C (nameless_handler c_KeyError)))
    = Raise {| exc_class := c_AttributeError; exc_quiet := None |} ∧
  eval (response None c) (world fresh)
    = Raise {| exc_class := c_AttributeError; exc_quiet := None |}.
Proof. repeat split; by vm_compute. Qed.

Lemma response_contains_Exception_faults_witness :
  let w := world (registry_C on_error) in
  let found := eval (lookup c None) (eh w) in
  (∀ h e, found = Ok (Some h) → h_call h request c = Raise e →
          isinstance e Exception = true) ∧
  (∀ e dbg bs fb, exception_response request c dbg bs fb = Raise e →
                  isinstance e Exception = true) ∧
  h_name on_error = Some "on_error" ∧
  ∃ resp, eval (response request c) w = Ok resp.
Proof.
  intros w found.
  assert (Hfound : found = Ok (Some on_error)) by (vm_compute; reflexivity).
  assert (Hhandler : ∀ h e, found = Ok (Some h) →
            h_call h request c = Raise e → isinstance e Exception = true).
  { intros h e Hh. rewrite Hfound in Hh. injection Hh as <-.
    intros [= <-]. vm_compute. reflexivity. }
  assert (Hrender : ∀ e dbg bs fb,
            exception_response request c dbg bs fb = Raise e →
            isinstance e Exception = true).
  { intros e dbg bs fb Hr. discriminate Hr. }
  split; [exact Hhandler|]. split; [exact Hrender|].
  split; [reflexivity|].
  exact (proj1 (response_contains_Exception_faults request c w
                  Hhandler Hrender) on_error "on_error" Hfound eq_refl).
Defined.

End Concrete.

(** ** More about the registry *)

Section RegistryMore.
Context `{Hierarchy Cls}.

Implicit Types (self : ErrorHandler Cls) (exception : Exc Cls).
Implicit Types (route_name name : option string) (c : Cls).
Implicit Types (d : gmap (Cls * option string) (option (Handler Cls))).

Local Abbreviation cache c route_name v self :=
  (set_cached_handlers (λ d, <[(c, route_name) := v]> d) self).

Lemma nearest_stored d name classes v :
  nearest d name classes = Some v → ∃ c, d !! (c, name) = Some v.
Proof.
  induction classes as [|c classes IH]; simpl; [done|].
  destruct (d !! (c, name)) as [v'|] eqn:E; [|done].
  intros [= <-]. eauto.
Qed.

Lemma nearest_ext d1 d2 name classes :
  (∀ c, d1 !! (c, name) = d2 !! (c, name)) →
  nearest d1 name classes = nearest d2 name classes.
Proof.
  intros Heq. induction classes as [|c classes IH]; simpl; [done|].
  by rewrite Heq, IH.
Qed.

(** The two ways a lookup ends: on the exact probe, nothing written; or
    after the walks, the result written under the looked-up key. *)
Lemma lookup_cases exception route_name self :
  let T := exc_class exception in
  let d := cached_handlers self in
  (∃ h, lookup exception route_name self = (Ok (Some h), self) ∧
        (d !! (T, route_name) = Some (Some h) ∨
         d !! (T, None) = Some (Some h))) ∨
  (∃ v, lookup exception route_name self = (Ok v, cache T route_name v self) ∧
        dict_get d (T, None) = None ∧
        (v = None ∨ ∃ key, d !! key = Some v)).
Proof.
  intros T d. rewrite lookup_spec. fold T d.
  destruct (dict_get d (T, route_name)) as [h|] eqn:ER.
  { left. exists h. split; [done|]. left. by apply dict_get_Some. }
  destruct (dict_get d (T, None)) as [h|] eqn:EN.
  { left. exists h. split; [done|]. right. by apply dict_get_Some. }
  right.
  destruct (nearest d route_name (chain T)) as [v|] eqn:E1.
  { exists v. split; [done|]. split; [done|]. right.
    apply nearest_stored in E1 as [c Hc]. eauto. }
  destruct (nearest d None (chain T)) as [v|] eqn:E2.
  { exists v. split; [done|]. split; [done|]. right.
    apply nearest_stored in E2 as [c Hc]. eauto. }
  exists None. split; [done|]. split; [done|]. by left.
Qed.

(** A lookup made right after its own cache write. *)
Lemma lookup_after_cache exception route_name v self :
  let T := exc_class exception in
  dict_get (cached_handlers self) (T, None) = None →
  lookup exception route_name (cache T route_name v self)
    = (Ok v, cache T route_name v self).
Proof.
  intros T HN. rewrite lookup_spec. fold T. cbn [cached_handlers set_cached_handlers].
  set (d := cached_handlers self) in *.
  assert (HR : dict_get (<[(T, route_name) := v]> d) (T, route_name) = v).
  { unfold dict_get. by rewrite lookup_insert_eq. }
  rewrite HR. destruct v as [h|]; [done|].
  assert (dict_get (<[(T, route_name) := None]> d) (T, None) = None) as ->.
  { unfold dict_get. destruct (decide (route_name = None)) as [->|Hrn].
    - by rewrite lookup_insert_eq.
    - rewrite lookup_insert_ne by congruence. apply HN. }
  destruct (upto_base_head T (ancestors T)) as [rest Hchain].
  unfold chain, mro. rewrite Hchain. simpl. rewrite lookup_insert_eq.
  unfold set_cached_handlers. simpl. by rewrite insert_insert_eq.
Qed.

(** X1: [lookup] changes nothing of the handler object except, at most,
    the table entry under the looked-up key [(type(exception), route_name)]:
    [handlers], [debug], [fallback], [base] and every other entry of the
    table are as before. *)
Theorem lookup_frame exception route_name self :
  let self' := exec (lookup exception route_name) self in
  handlers self' = handlers self ∧
  debug self' = debug self ∧
  fallback self' = fallback self ∧
  base self' = base self ∧
  ∀ key, key ≠ (exc_class exception, route_name) →
         cached_handlers self' !! key = cached_handlers self !! key.
Proof.
  intros self'. subst self'. unfold exec.
  destruct (lookup_cases exception route_name self)
    as [(h & -> & _)|(v & -> & _)]; simpl.
  - done.
  - repeat split. intros key Hkey. by rewrite lookup_insert_ne.
Qed.

(** X2: a lookup repeated at once returns the same result as the
    first, and the repetition leaves the handler object as the first lookup
    left it. *)
Theorem lookup_twice exception route_name self :
  let self' := exec (lookup exception route_name) self in
  lookup exception route_name self'
    = (eval (lookup exception route_name) self, self').
Proof.
  intros self'. subst self'. unfold exec, eval.
  destruct (lookup_cases exception route_name self)
    as [(h & Hl & _)|(v & Hl & HN & _)]; rewrite Hl; simpl.
  - done.
  - by apply lookup_after_cache.
Qed.

Lemma foldl_insert_lookup c (h : Handler Cls) routes d key :
  foldl (λ d route, <[(c, Some route) := Some h]> d) d routes !! key =
    if bool_decide (key ∈ (λ r, (c, Some r)) <$> routes)
    then Some (Some h) else d !! key.
Proof.
  revert d. induction routes as [|route routes IH]; intros d; simpl; [done|].
  rewrite IH. destruct (decide (key = (c, Some route))) as [->|Hne].
  - rewrite lookup_insert_eq.
    rewrite (bool_decide_eq_true_2 (_ ∈ _ :: _)) by apply list_elem_of_here.
    by case_bool_decide.
  - rewrite lookup_insert_ne by done.
    case_bool_decide as Hin.
    + by rewrite bool_decide_eq_true_2 by (by apply list_elem_of_further).
    + rewrite bool_decide_eq_false_2; [done|].
      intros [?|?]%elem_of_cons; done.
Qed.

(** The table after [add]: the handler under each of the keys of the call,
    every other entry as before. *)
Lemma add_table c (h : Handler Cls) route_names self key :
  cached_handlers (exec (add c h route_names) self) !! key =
    if bool_decide (key ∈ add_keys c route_names)
    then Some (Some h) else cached_handlers self !! key.
Proof.
  unfold add, exec, mbind, M_bind, bind, modify.
  destruct route_names as [[|route routes]|].
  - simpl. rewrite lookup_insert. case_decide as Hk; subst.
    + by rewrite bool_decide_eq_true_2 by apply list_elem_of_here.
    + rewrite bool_decide_eq_false_2; [done|].
      by intros ->%list_elem_of_singleton.
  - rewrite for_each_setitem. cbn [snd cached_handlers set_cached_handlers set_handlers].
    by rewrite foldl_insert_lookup.
  - simpl. rewrite lookup_insert. case_decide as Hk; subst.
    + by rewrite bool_decide_eq_true_2 by apply list_elem_of_here.
    + rewrite bool_decide_eq_false_2; [done|].
      by intros ->%list_elem_of_singleton.
Qed.

Lemma add_handlers c (h : Handler Cls) route_names self :
  handlers (exec (add c h route_names) self) = handlers self ++ [(c, h)].
Proof.
  unfold add, exec, mbind, M_bind, bind, modify.
  destruct route_names as [[|route routes]|]; [done| |done].
  by rewrite for_each_setitem.
Qed.

Lemma add_returns c (h : Handler Cls) route_names self :
  add c h route_names self = (Ok tt, exec (add c h route_names) self).
Proof.
  unfold add, exec, mbind, M_bind, bind, modify.
  destruct route_names as [[|route routes]|]; [done| |done].
  by rewrite for_each_setitem.
Qed.

(** X3: [add] with a non-empty list of route names stores the handler
    under [(exception, route)] for each of the names and under no other key
    (the global entry is not written); an instance of exactly that class is
    then resolved to the handler on each of those routes, with no write to
    the table. *)
Theorem add_route_names_entries c (h : Handler Cls) route routes self :
  let self' := exec (add c h (Some (route :: routes))) self in
  (∀ r, r ∈ route :: routes →
        cached_handlers self' !! (c, Some r) = Some (Some h)) ∧
  (∀ key, (∀ r, r ∈ route :: routes → key ≠ (c, Some r)) →
          cached_handlers self' !! key = cached_handlers self !! key) ∧
  (∀ exception r, exc_class exception = c → r ∈ route :: routes →
        lookup exception (Some r) self' = (Ok (Some h), self')).
Proof.
  intros self'.
  assert (Hin : ∀ r, r ∈ route :: routes →
            cached_handlers self' !! (c, Some r) = Some (Some h)).
  { intros r Hr. subst self'. rewrite add_table.
    rewrite bool_decide_eq_true_2; [done|].
    unfold add_keys. by apply (list_elem_of_fmap_2 (λ r, (c, Some r))). }
  split; [done|]. split.
  - intros key Hkey. subst self'. rewrite add_table.
    rewrite bool_decide_eq_false_2; [done|].
    unfold add_keys. intros (r & -> & Hr)%list_elem_of_fmap.
    by apply (Hkey r).
  - intros exception r <- Hr. rewrite lookup_spec.
    assert (dict_get (cached_handlers self') (exc_class exception, Some r)
            = Some h) as ->; [|done].
    by apply dict_get_Some, Hin.
Qed.

(** X4: registering twice for the same class and the same route names,
    the last handler wins: the table is the one the second [add] alone
    would give, while [self.handlers] keeps both pairs in call order. *)
Theorem add_last_write_wins c (h1 h2 : Handler Cls) route_names self :
  let self' := exec (add c h1 route_names;; add c h2 route_names) self in
  cached_handlers self'
    = cached_handlers (exec (add c h2 route_names) self) ∧
  handlers self' = handlers self ++ [(c, h1); (c, h2)].
Proof.
  intros self'.
  assert (Hself' : self' = exec (add c h2 route_names)
                              (exec (add c h1 route_names) self)).
  { subst self'. unfold exec at 1, mbind, M_bind. unfold bind at 1.
    by rewrite (add_returns c h1). }
  rewrite Hself'. split.
  - apply map_eq. intros key. rewrite !add_table.
    by case_bool_decide.
  - rewrite !add_handlers. by rewrite <- app_assoc.
Qed.

End RegistryMore.

(** ** Runs of the registry, the legacy lookup and [finalize] *)

Section RunsMore.
Context `{Hierarchy Cls}.

Implicit Types (self : ErrorHandler Cls) (exception : Exc Cls).
Implicit Types (route_name name : option string) (c : Cls).
Implicit Types (calls : list (RegistryCall Cls)).

Lemma run_call_returns (call : RegistryCall Cls) self :
  run_call call self = (Ok tt, exec (run_call call) self).
Proof.
  destruct call as [c h route_names|exception route_name]; simpl.
  - apply add_returns.
  - unfold exec, mbind, M_bind, bind, mret, M_ret, ret.
    by destruct (lookup_cases exception route_name self)
      as [(h & -> & _)|(v & -> & _)].
Qed.

Lemma run_calls_cons (call : RegistryCall Cls) calls self :
  exec (for_each (call :: calls) run_call) self
    = exec (for_each calls run_call) (exec (run_call call) self).
Proof.
  unfold exec at 1. simpl. unfold mbind, M_bind, bind.
  by rewrite run_call_returns.
Qed.

Lemma run_call_lookup_state exception route_name self :
  exec (run_call (CallLookup exception route_name)) self
    = exec (lookup exception route_name) self.
Proof.
  unfold exec. simpl. unfold mbind, M_bind, bind, mret, M_ret, ret.
  by destruct (lookup_cases exception route_name self)
    as [(h & -> & _)|(v & -> & _)].
Qed.

Lemma run_calls_handlers calls self :
  handlers (exec (for_each calls run_call) self)
    = handlers self ++ added_pairs calls.
Proof.
  revert self. induction calls as [|call calls IH]; intros self.
  - unfold added_pairs. simpl. by rewrite app_nil_r.
  - rewrite run_calls_cons, IH.
    destruct call as [c h route_names|exception route_name].
    + unfold added_pairs. simpl. rewrite add_handlers.
      by rewrite <- app_assoc.
    + rewrite run_call_lookup_state. unfold exec.
      by destruct (lookup_cases exception route_name self)
        as [(h & -> & _)|(v & -> & _)].
Qed.

Lemma run_call_stored (call : RegistryCall Cls) self :
  stored_handlers_registered self →
  stored_handlers_registered (exec (run_call call) self).
Proof.
  intros Hinv key h.
  destruct call as [c h' route_names|exception route_name].
  - simpl. rewrite add_table, add_handlers, fmap_app, elem_of_app.
    case_bool_decide.
    + intros [= ->]. right. simpl. apply list_elem_of_here.
    + intros Hk. left. by apply (Hinv key).
  - rewrite run_call_lookup_state. unfold exec.
    destruct (lookup_cases exception route_name self)
      as [(h0 & -> & _)|(v & -> & _ & Hv)]; simpl; [by apply Hinv|].
    rewrite lookup_insert. case_decide; [|by apply Hinv].
    intros [= ->]. destruct Hv as [|[key' Hkey']]; [done|].
    by apply (Hinv key').
Qed.

Lemma run_calls_stored calls self :
  stored_handlers_registered self →
  stored_handlers_registered (exec (for_each calls run_call) self).
Proof.
  revert self. induction calls as [|call calls IH]; intros self Hinv; [done|].
  rewrite run_calls_cons. by apply IH, run_call_stored.
Qed.

(** X5: after any sequence of [add] and [lookup] calls on a new
    [ErrorHandler], [self.handlers] is the list of the pairs passed to
    [add], in call order (lookups never change it); every handler stored in
    the table is among them; so [lookup] only ever returns a handler that
    was registered with [add]. *)
Theorem lookup_returns_registered_handler fallback base calls :
  let self := exec (for_each calls run_call) (__init__ fallback base) in
  handlers self = added_pairs calls ∧
  stored_handlers_registered self ∧
  ∀ exception route_name h,
    eval (lookup exception route_name) self = Ok (Some h) →
    h ∈ (added_pairs calls).*2.
Proof.
  intros self.
  assert (Hh : handlers self = added_pairs calls).
  { subst self. by rewrite run_calls_handlers. }
  assert (Hinv : stored_handlers_registered self).
  { subst self. apply run_calls_stored. intros key h. simpl.
    by rewrite lookup_empty. }
  split; [done|]. split; [done|].
  intros exception route_name h. unfold eval. rewrite <- Hh.
  destruct (lookup_cases exception route_name self)
    as [(h0 & -> & [Hk|Hk])|(v & -> & _ & Hv)]; simpl.
  - intros [= <-]. by apply (Hinv _ _ Hk).
  - intros [= <-]. by apply (Hinv _ _ Hk).
  - intros [= ->]. destruct Hv as [|[key Hkey]]; [done|].
    by apply (Hinv _ _ Hkey).
Qed.

(** X6: the legacy lookup is blind to routes: its result does not depend
    on the route name it is given, nor on any entry of the table under a
    route name; and it writes its result under the global key only. *)
Theorem legacy_lookup_ignores_routes exception route_name1 route_name2
    self1 self2 :
  (∀ c, cached_handlers self1 !! (c, None)
        = cached_handlers self2 !! (c, None)) →
  eval (_legacy_lookup exception route_name1) self1
    = eval (_legacy_lookup exception route_name2) self2 ∧
  (∀ c r, cached_handlers (exec (_legacy_lookup exception route_name1) self1)
            !! (c, Some r) = cached_handlers self1 !! (c, Some r)) ∧
  (∀ c, cached_handlers (exec (_legacy_lookup exception route_name1) self1)
          !! (c, None)
        = cached_handlers (exec (_legacy_lookup exception route_name2) self2)
          !! (c, None)).
Proof.
  intros Hglobal. unfold _legacy_lookup, eval, exec. rewrite !lookup_spec.
  set (T := exc_class exception).
  assert (Hget : dict_get (cached_handlers self1) (T, None)
                 = dict_get (cached_handlers self2) (T, None)).
  { unfold dict_get. by rewrite Hglobal. }
  rewrite <- Hget.
  rewrite <- (nearest_ext (cached_handlers self1) (cached_handlers self2))
    by done.
  destruct (dict_get (cached_handlers self1) (T, None)) as [h|];
    [by repeat split|].
  assert (Hins : ∀ v c,
    <[(T, None) := v]> (cached_handlers self1) !! (c, None)
    = <[(T, None) := v]> (cached_handlers self2) !! (c, None)).
  { intros v c. rewrite !lookup_insert. by case_decide. }
  destruct (nearest (cached_handlers self1) None (chain T)) as [v|]; simpl;
    (split; [done|]; split; [intros c r; by rewrite lookup_insert_ne|done]).
Qed.

(** X7: [finalize] sets the fallback of the handler only when the
    handler's own fallback is ["auto"] and the given one is neither absent,
    empty nor ["auto"]: a fallback chosen on the handler is never
    overridden, and ["auto"] is never written.  Nothing else of the
    handler's attributes changes, and finalizing again with the same
    argument changes nothing. *)
Theorem finalize_fallback (error_handler : HandlerObject Cls)
    (fallback_arg : option string) :
  let before := obj_attrs error_handler in
  let after := obj_attrs (finalize error_handler fallback_arg).1 in
  (fallback before ≠ "auto" → fallback after = fallback before) ∧
  (fallback after ≠ fallback before →
     fallback before = "auto" ∧ fallback_arg = Some (fallback after) ∧
     fallback after ≠ EmptyString ∧ fallback after ≠ "auto") ∧
  (∀ fb, fallback before = "auto" → fallback_arg = Some fb →
         fb ≠ EmptyString → fb ≠ "auto" → fallback after = fb) ∧
  handlers after = handlers before ∧
  cached_handlers after = cached_handlers before ∧
  debug after = debug before ∧ base after = base before ∧
  (finalize (finalize error_handler fallback_arg).1 fallback_arg).1
    = (finalize error_handler fallback_arg).1.
Proof.
  intros before after. subst before after. unfold finalize, fallback_of.
  destruct error_handler
    as [attrs conforming type_text params has_legacy binding].
  cbn [obj_attrs obj_isinstance_cls obj_type_text obj_lookup_parameters
       obj_has__legacy_lookup obj__lookup].
  destruct fallback_arg as [fb|].
  - destruct (String.eqb_spec fb EmptyString) as [E1|E1];
    destruct (String.eqb_spec fb "auto") as [E2|E2];
    destruct (String.eqb_spec (fallback attrs) "auto") as [E3|E3];
    destruct (Nat.eqb params 1) eqn:E4;
    destruct (conforming || has_legacy) eqn:E5;
    cbn [negb andb fst obj_attrs obj_isinstance_cls obj_type_text
         obj_lookup_parameters obj_has__legacy_lookup obj__lookup
         set_fallback fallback handlers cached_handlers debug base];
    rewrite ?E4, ?E5;
    repeat match goal with
    | |- context [String.eqb ?a ?b] => destruct (String.eqb_spec a b)
    end;
    cbn [negb andb fst obj_attrs obj_isinstance_cls obj_type_text
         obj_lookup_parameters obj_has__legacy_lookup obj__lookup
         set_fallback fallback handlers cached_handlers debug base];
    repeat split; try done; try congruence;
    try (intros fb' ? [= <-]; congruence).
  - destruct (Nat.eqb params 1) eqn:E4;
      destruct (conforming || has_legacy) eqn:E5; cbn; rewrite ?E4, ?E5;
      repeat split; try done.
Qed.

(** X24: [finalize] warns about a non-conforming object first and about a
    one-parameter [lookup] second, and about nothing else.  With a
    [lookup] of any other number of parameters it returns and leaves
    [_lookup] as it was.  With a one-parameter [lookup] it binds [_lookup]
    to the legacy lookup and returns when the object is an instance of
    the class or has a [_legacy_lookup] of its own; for a non-conforming
    object without one it raises [AttributeError] after both warnings,
    and [_lookup] is left as it was. *)
Theorem finalize_lookup_binding (error_handler : HandlerObject Cls)
    (fallback_arg : option string) :
  let result := finalize error_handler fallback_arg in
  let after := result.1 in
  let warnings := result.2.1 in
  let outcome := result.2.2 in
  let non_conforming :=
    "Error handler is non-conforming: " +:+ obj_type_text error_handler in
  warnings
    = (if obj_isinstance_cls error_handler then [] else [non_conforming])
      ++ (if Nat.eqb (obj_lookup_parameters error_handler) 1
          then [deprecation_message] else []) ∧
  (obj_lookup_parameters error_handler ≠ 1%nat →
     outcome = Ok tt ∧ obj__lookup after = obj__lookup error_handler) ∧
  (obj_lookup_parameters error_handler = 1%nat →
     obj_isinstance_cls error_handler = true
     ∨ obj_has__legacy_lookup error_handler = true →
     outcome = Ok tt ∧ obj__lookup after = Bound_legacy_lookup) ∧
  (obj_lookup_parameters error_handler = 1%nat →
     obj_isinstance_cls error_handler = false →
     obj_has__legacy_lookup error_handler = false →
     outcome = Raise {| exc_class := AttributeError; exc_quiet := None |} ∧
     obj__lookup after = obj__lookup error_handler ∧
     warnings = [non_conforming; deprecation_message]).
Proof.
  intros result after warnings outcome non_conforming.
  subst result after warnings outcome non_conforming. unfold finalize.
  destruct error_handler
    as [attrs conforming type_text params has_legacy binding].
  cbn [obj_attrs obj_isinstance_cls obj_type_text obj_lookup_parameters
       obj_has__legacy_lookup obj__lookup].
  destruct (Nat.eqb_spec params 1) as [->|Hparams].
  - destruct conforming, has_legacy; cbn [orb negb fst snd obj__lookup];
      rewrite ?app_nil_r;
      (split; [reflexivity|]); (split; [done|]);
      (split; [intros _ [[=]|[=]]; done|]); intros _ [=] [=]; done.
  - destruct conforming; cbn [negb fst snd obj__lookup];
      rewrite ?app_nil_r;
      (split; [reflexivity|]); (split; [done|]); split; intros ->; done.
Qed.

End RunsMore.

(** ** More about the dispatch guard *)

Section DispatchMore.
Context `{Hierarchy Cls} `{!Collaborators Cls}.

Implicit Types (self : ErrorHandler Cls) (exception e : Exc Cls).
Implicit Types (w : World Cls) (request : option Request).

Local Abbreviation route_name_of request :=
  (match request with Some req => req_name req | None => None end).

Local Abbreviation after_lookup request exception w :=
  {| eh := exec (lookup exception (route_name_of request)) (eh w);
     error_logger := error_logger w |}.

(** [w'] is [w] with at most [n] records appended to the error logger. *)
Local Abbreviation logged_upto n w w' :=
  (eh w' = eh w ∧
   ∃ new, error_logger w' = error_logger w ++ new ∧ (List.length new ≤ n)%nat).

Lemma lookup_ok exception route_name self :
  ∃ handler, eval (lookup exception route_name) self = Ok handler.
Proof.
  unfold eval.
  destruct (lookup_cases exception route_name self)
    as [(h & -> & _)|(v & -> & _)]; eauto.
Qed.

Lemma logged_upto_refl w : logged_upto 0 w w.
Proof. split; [done|]. exists []. by rewrite app_nil_r. Qed.

Lemma log_effect request exception w :
  logged_upto 1 w (exec (log request exception) w).
Proof.
  unfold exec, log. destruct request as [req|].
  - destruct (is_False _ || is_True _); unfold logger_exception; unfold_M;
      simpl.
    + split; [done|]. eexists [_]. split; [done|]. simpl. lia.
    + split; [done|]. exists []. rewrite app_nil_r. split; [done|]. simpl. lia.
  - unfold raise. simpl. split; [done|]. exists []. rewrite app_nil_r.
    split; [done|]. simpl. lia.
Qed.

Lemma default_effect request exception w :
  logged_upto 1 w (exec (default request exception) w).
Proof.
  unfold exec, default, mbind, M_bind, bind.
  pose proof (log_effect request exception w) as Hlog. unfold exec in Hlog.
  destruct (log request exception w) as [[[]|e] w1]; simpl in *; [|done].
  unfold get_state, lift_res. done.
Qed.

Lemma response_except_effect request (handler : option (Handler Cls)) w :
  logged_upto 1 w (exec (response_except request handler) w).
Proof.
  destruct (handler ≫= h_name) as [name|] eqn:Hname.
  - destruct handler as [h|]; [|done]. simpl in Hname.
    unfold exec. rewrite (response_except_handler _ _ name) by done. simpl.
    split; [done|]. eexists [_]. split; [done|]. simpl. lia.
  - unfold exec. rewrite response_except_nameless by done. simpl.
    split; [done|]. exists []. rewrite app_nil_r. split; [done|]. simpl. lia.
Qed.

Lemma response_try_effect request exception (handler : option (Handler Cls)) w :
  logged_upto 1 w (exec (response_try request exception handler) w).
Proof.
  unfold exec, response_try, mbind, M_bind, bind.
  assert (Hdefault := default_effect request exception w).
  unfold exec in Hdefault.
  destruct handler as [h|].
  - unfold lift_res.
    destruct (h_call h request exception) as [[r|]|e]; simpl; [| done |].
    + split; [done|]. exists []. rewrite app_nil_r. split; [done|]. simpl. lia.
    + split; [done|]. exists []. rewrite app_nil_r. split; [done|]. simpl. lia.
  - unfold mret, M_ret, ret. done.
Qed.

(** X8: whatever happens in [response] (a response returned or an
    exception raised), the handler object is changed by the lookup alone,
    and the error logger only grows, by at most two records. *)
Theorem response_effect request exception w :
  let w' := exec (response request exception) w in
  eh w' = exec (lookup exception (route_name_of request)) (eh w) ∧
  ∃ new, error_logger w' = error_logger w ++ new ∧ (List.length new ≤ 2)%nat.
Proof.
  intros w'. subst w'.
  destruct (lookup_ok exception (route_name_of request) (eh w))
    as [handler Hfound].
  unfold exec. rewrite (response_unfold _ _ _ _ Hfound). unfold try_except.
  pose proof (response_try_effect request exception handler
                (after_lookup request exception w)) as [Heh (new1 & Hl1 & Hn1)].
  unfold exec in Heh, Hl1.
  destruct (response_try request exception handler _) as [[r|e] w1];
    cbn [snd eh error_logger] in *.
  - split; [done|]. exists new1. split; [done|]. lia.
  - destruct (isinstance e Exception).
    + pose proof (response_except_effect request handler w1)
        as [Heh2 (new2 & Hl2 & Hn2)].
      unfold exec in Heh2, Hl2. split; [congruence|].
      exists (new1 ++ new2). rewrite Hl2, Hl1, app_assoc.
      split; [done|]. rewrite length_app. lia.
    + simpl. split; [done|]. exists new1. split; [done|]. lia.
Qed.

(** X9: when the resolved handler returns a response, [response]
    returns that very response, writes no log record and does not consult
    the renderer; when the resolved handler returns [None] and the default
    path returns a response, [response] returns the response of the default
    path. *)
Theorem response_handler_result request exception w (h : Handler Cls) :
  eval (lookup exception (route_name_of request)) (eh w) = Ok (Some h) →
  (∀ r, h_call h request exception = Ok (Some r) →
        response request exception w
          = (Ok r, after_lookup request exception w)) ∧
  (∀ r w', h_call h request exception = Ok None →
           default request exception (after_lookup request exception w)
             = (Ok r, w') →
           response request exception w = (Ok r, w')).
Proof.
  intros Hfound. split.
  - intros r Hcall. rewrite (response_unfold _ _ _ _ Hfound).
    unfold try_except, response_try, mbind, M_bind, bind, lift_res.
    by rewrite Hcall.
  - intros r w' Hcall Hdefault. rewrite (response_unfold _ _ _ _ Hfound).
    unfold try_except, response_try, mbind, M_bind, bind, lift_res.
    by rewrite Hcall, Hdefault.
Qed.

(** X10: when the resolved handler raises an instance of [Exception]
    and carries a [__name__], exactly one record is appended to the error
    logger, in debug mode or not: the message of the double fault with the
    handler's name and the URL text as arguments.  When it carries no
    [__name__], reading the name raises [AttributeError] out of the except
    block: [response] raises it and nothing is logged. *)
Theorem response_double_fault_logged request exception w (h : Handler Cls) e :
  eval (lookup exception (route_name_of request)) (eh w) = Ok (Some h) →
  h_call h request exception = Raise e →
  isinstance e Exception = true →
  (∀ name, h_name h = Some name →
     error_logger (exec (response request exception) w) =
       error_logger w ++
         [{| log_msg := response_message;
             log_args := [name; url_or_unknown request] |}]) ∧
  (h_name h = None →
     response request exception w =
       (Raise {| exc_class := AttributeError; exc_quiet := None |},
        after_lookup request exception w)).
Proof.
  intros Hfound Hcall Hcaught. split.
  - intros name Hname.
    unfold exec. rewrite (response_unfold _ _ _ _ Hfound).
    unfold try_except, response_try, mbind, M_bind, bind, lift_res.
    by rewrite Hcall, Hcaught, (response_except_handler _ _ name).
  - intros Hname. rewrite (response_unfold _ _ _ _ Hfound).
    unfold try_except, response_try, mbind, M_bind, bind, lift_res.
    by rewrite Hcall, Hcaught, response_except_nameless.
Qed.

(** X11: when the resolved handler raises an exception that is not an
    instance of [Exception], [response] raises that same exception and
    writes no log record. *)
Theorem response_non_Exception_propagates request exception w
    (h : Handler Cls) e :
  eval (lookup exception (route_name_of request)) (eh w) = Ok (Some h) →
  h_call h request exception = Raise e →
  isinstance e Exception = false →
  response request exception w = (Raise e, after_lookup request exception w).
Proof.
  intros Hfound Hcall Hcaught.
  rewrite (response_unfold _ _ _ _ Hfound).
  unfold try_except, response_try, mbind, M_bind, bind, lift_res.
  by rewrite Hcall, Hcaught.
Qed.

(** X12: when no handler is resolved and the default path raises an
    instance of [Exception], [response] raises the [AttributeError] of
    [None.__name__] in place of that exception, and its except block logs
    nothing.  This is always so for an absent request, since the default
    path then fails on [request.app]. *)
Theorem response_no_handler_fault_escapes request exception w :
  eval (lookup exception (route_name_of request)) (eh w) = Ok None →
  (∀ e w',
     default request exception (after_lookup request exception w)
       = (Raise e, w') →
     isinstance e Exception = true →
     response request exception w =
       (Raise {| exc_class := AttributeError; exc_quiet := None |}, w')) ∧
  (request = None →
   response request exception w =
     (Raise {| exc_class := AttributeError; exc_quiet := None |},
      after_lookup request exception w)).
Proof.
  intros Hfound.
  assert (Hgen : ∀ e w',
     default request exception (after_lookup request exception w)
       = (Raise e, w') →
     isinstance e Exception = true →
     response request exception w =
       (Raise {| exc_class := AttributeError; exc_quiet := None |}, w')).
  { intros e w' Hdefault Hcaught.
    rewrite (response_unfold _ _ _ _ Hfound).
    unfold try_except, response_try, mbind, M_bind, bind.
    unfold mret at 1, M_ret, ret. rewrite Hdefault, Hcaught.
    unfold response_except, getattr___name__. by unfold_M. }
  split; [exact Hgen|].
  intros ->. apply (Hgen {| exc_class := AttributeError; exc_quiet := None |}).
  - done.
  - apply AttributeError_caught.
Qed.

End DispatchMore.

(** ** [ContentRangeHandler]: the parsed range *)

Section ContentRangeFacts.
Context `{Builtins}.

Implicit Types (s t u U S E V R : string) (a sep : ascii) (total st en : Z).

Lemma app_String a s t : String a s +:+ t = String a (s +:+ t).
Proof. reflexivity. Qed.

Lemma str_app_nil_r s : s +:+ EmptyString = s.
Proof.
  induction s as [|a s IH]; [done|]. rewrite app_String. by f_equal.
Qed.

Lemma partition_found sep pre post :
  has_char sep pre = false →
  partition sep (pre +:+ String sep post)
    = (pre, String sep EmptyString, post).
Proof.
  induction pre as [|a pre IH]; intros Hpre.
  - change (EmptyString +:+ String sep post) with (String sep post).
    simpl. by rewrite Ascii.eqb_refl.
  - rewrite app_String. simpl in *.
    apply orb_false_iff in Hpre as [Ha Hpre].
    by rewrite Ha, IH.
Qed.

Lemma partition_not_found sep s :
  has_char sep s = false →
  partition sep s = (s, EmptyString, EmptyString).
Proof.
  induction s as [|a s IH]; intros Hs; [done|]. simpl in *.
  apply orb_false_iff in Hs as [Ha Hs]. by rewrite Ha, IH.
Qed.

Lemma lstrip_app s a t :
  isspace a = false → lstrip (s +:+ String a t) = lstrip s +:+ String a t.
Proof.
  intros Ha. induction s as [|b s IH].
  - change (EmptyString +:+ String a t) with (String a t).
    simpl. by rewrite Ha.
  - rewrite app_String. simpl. destruct (isspace b); [done|].
    by rewrite app_String.
Qed.

Lemma rstrip_nonspace a t :
  isspace a = false → rstrip (String a t) = String a (rstrip t).
Proof. intros Ha. simpl. rewrite Ha. by destruct (rstrip t). Qed.

Lemma rstrip_app s a t :
  isspace a = false → rstrip (s +:+ String a t) = s +:+ String a (rstrip t).
Proof.
  intros Ha. induction s as [|b s IH].
  - change (EmptyString +:+ ?x) with x. by apply rstrip_nonspace.
  - rewrite !app_String. cbn [rstrip]. rewrite IH.
    destruct s; by rewrite ?app_String.
Qed.

Lemma has_char_lstrip sep s :
  has_char sep s = false → has_char sep (lstrip s) = false.
Proof.
  induction s as [|a s IH]; intros Hs; [done|]. simpl in *.
  apply orb_false_iff in Hs as [Ha Hs].
  destruct (isspace a); [by apply IH|]. simpl. by rewrite Ha, Hs.
Qed.

Lemma has_char_rstrip sep s :
  has_char sep s = false → has_char sep (rstrip s) = false.
Proof.
  induction s as [|a s IH]; intros Hs; [done|]. simpl in *.
  apply orb_false_iff in Hs as [Ha Hs]. specialize (IH Hs).
  destruct (rstrip s) as [|b kept].
  - destruct (isspace a); simpl; [done|]. by rewrite Ha.
  - simpl in *. by rewrite Ha, IH.
Qed.

Lemma lstrip_idem s : lstrip (lstrip s) = lstrip s.
Proof.
  induction s as [|a s IH]; [done|]. simpl.
  destruct (isspace a) eqn:Ha; [done|]. simpl. by rewrite Ha.
Qed.

Lemma rstrip_idem s : rstrip (rstrip s) = rstrip s.
Proof.
  induction s as [|a s IH]; [done|]. cbn [rstrip].
  destruct (rstrip s) as [|b kept] eqn:E.
  - destruct (isspace a) eqn:Ha; [done|]. simpl. by rewrite Ha.
  - cbn [rstrip] in *. by rewrite IH.
Qed.

Lemma rstrip_empty_lstrip s : rstrip s = EmptyString → lstrip s = EmptyString.
Proof.
  induction s as [|a s IH]; [done|]. simpl.
  destruct (rstrip s) as [|b kept]; [|done].
  destruct (isspace a); [|done]. intros _. by apply IH.
Qed.

Lemma lstrip_rstrip s : lstrip (rstrip s) = rstrip (lstrip s).
Proof.
  induction s as [|a s IH]; [done|].
  destruct (isspace a) eqn:Ha.
  - cbn [rstrip lstrip]. rewrite Ha.
    destruct (rstrip s) as [|b kept] eqn:E.
    + apply rstrip_empty_lstrip in E. by rewrite E.
    + rewrite <- IH. cbn [lstrip]. by rewrite Ha.
  - cbn [lstrip]. rewrite Ha. rewrite rstrip_nonspace by done.
    cbn [lstrip]. by rewrite Ha.
Qed.

Lemma strip_lstrip s : strip (lstrip s) = strip s.
Proof. unfold strip. by rewrite lstrip_idem. Qed.

Lemma strip_rstrip s : strip (rstrip s) = strip s.
Proof. unfold strip. by rewrite lstrip_rstrip, rstrip_idem. Qed.

Lemma strip_idem s : strip (strip s) = strip s.
Proof. unfold strip at 2. by rewrite strip_rstrip, strip_lstrip. Qed.

Lemma has_char_strip sep s :
  has_char sep s = false → has_char sep (strip s) = false.
Proof. intros Hs. by apply has_char_rstrip, has_char_lstrip. Qed.

(** The constructor on a header of the shape [unit=start-end]. *)
Lemma init_dash U S E total :
  has_char "=" U = false → strip U = "bytes" → has_char "-" S = false →
  ContentRangeHandler__init__ (Some (U +:+ "=" +:+ S +:+ "-" +:+ E)) total
    = content_range_of_bounds total (strip S) (strip E).
Proof.
  intros HU Hunit HS. unfold ContentRangeHandler__init__.
  change ("=" +:+ ?x) with (String "=" x).
  change ("-" +:+ ?x) with (String "-" x).
  rewrite partition_found by done. rewrite Hunit.
  cbn [String.eqb Ascii.eqb Bool.eqb negb].
  assert (strip (S +:+ String "-" E)
          = lstrip S +:+ String "-" (rstrip E)) as ->.
  { unfold strip. by rewrite lstrip_app, rstrip_app. }
  rewrite partition_found by (by apply has_char_lstrip).
  by rewrite strip_lstrip, strip_rstrip.
Qed.

(** The constructor on a header of the shape [unit=start], no dash. *)
Lemma init_no_dash U V total :
  has_char "=" U = false → strip U = "bytes" → has_char "-" V = false →
  ContentRangeHandler__init__ (Some (U +:+ "=" +:+ V)) total
    = content_range_of_bounds total (strip V) EmptyString.
Proof.
  intros HU Hunit HV. unfold ContentRangeHandler__init__.
  change ("=" +:+ ?x) with (String "=" x).
  rewrite partition_found by done. rewrite Hunit.
  cbn [String.eqb Ascii.eqb Bool.eqb negb].
  rewrite partition_not_found by (by apply has_char_strip).
  by rewrite strip_idem.
Qed.

Lemma int_or_None_nonempty s :
  s ≠ EmptyString →
  int_or_None s = match py_int s with Some n => Some (Some n) | None => None end.
Proof. by destruct s. Qed.

Lemma content_range_header st en total :
  percent_format "bytes %s-%s/%s" [py_str st; py_str en; py_str total]
    = "bytes " +:+ py_str st +:+ "-" +:+ py_str en +:+ "/" +:+ py_str total.
Proof. rewrite <- (str_app_nil_r (py_str total)) at 2. reflexivity. Qed.

Lemma of_bounds_constructed total start_b end_b o :
  content_range_of_bounds total start_b end_b = inr o →
  (cr_start o < cr_end o)%Z ∧
  cr_size o = (cr_end o - cr_start o + 1)%Z ∧
  cr_total o = total ∧
  cr_headers o =
    {[ "Content-Range" :=
         "bytes " +:+ py_str (cr_start o) +:+ "-" +:+ py_str (cr_end o)
           +:+ "/" +:+ py_str total ]}.
Proof.
  unfold content_range_of_bounds.
  destruct (int_or_None start_b) as [[st|]|]; [| |done];
    (destruct (int_or_None end_b) as [[en|]|]; [| |done]); try done;
    match goal with |- context [(?x >=? ?y)%Z] =>
      destruct (Z.geb_spec x y); [done|] end;
    intros [= <-]; cbn [cr_start cr_end cr_size cr_total cr_headers];
    rewrite str_app_nil_r; repeat split; (lia || reflexivity).
Qed.

(** X13: a constructed [ContentRangeHandler] always has
    [start < end], [size = end - start + 1], hence a size of at least 2
    (a range of a single byte is refused), the [total] it was given, the
    header [Content-Range: bytes start-end/total], and is truthy; and it is
    only ever constructed when the request carries a [Range] header. *)
Theorem content_range_constructed range_header total o :
  ContentRangeHandler__init__ range_header total = inr o →
  (cr_start o < cr_end o)%Z ∧
  cr_size o = (cr_end o - cr_start o + 1)%Z ∧
  (2 ≤ cr_size o)%Z ∧
  cr_total o = total ∧
  cr_headers o =
    {[ "Content-Range" :=
         "bytes " +:+ py_str (cr_start o) +:+ "-" +:+ py_str (cr_end o)
           +:+ "/" +:+ py_str total ]} ∧
  ContentRangeHandler__bool__ o = true ∧
  is_Some range_header.
Proof.
  unfold ContentRangeHandler__init__.
  destruct range_header as [_range|]; [|done].
  destruct (partition "=" _range) as [[unit found] value].
  destruct (negb _); [done|].
  destruct (partition "-" (strip value)) as [[start_b found'] end_b].
  intros (Hlt & Hsize & Htotal & Hheaders)%of_bounds_constructed.
  unfold ContentRangeHandler__bool__.
  repeat split; try done; try lia; try (apply Z.gtb_lt; lia).
Qed.

Lemma of_bounds_both total start_b end_b st en :
  int_or_None start_b = Some (Some st) →
  int_or_None end_b = Some (Some en) →
  content_range_of_bounds total start_b end_b =
    if (st <? en)%Z then inr (range_object st en total)
    else inl (bounds_refused st en total).
Proof.
  intros Hs He. unfold content_range_of_bounds. rewrite Hs, He.
  rewrite content_range_header.
  destruct (Z.geb_spec st en), (Z.ltb_spec st en); (done || lia).
Qed.

Lemma of_bounds_open total start_b st :
  int_or_None start_b = Some (Some st) →
  content_range_of_bounds total start_b EmptyString =
    if (st <? total - 1)%Z then inr (range_object st (total - 1) total)
    else inl (bounds_refused st (total - 1) total).
Proof.
  intros Hs. unfold content_range_of_bounds. rewrite Hs.
  cbn [int_or_None]. rewrite content_range_header.
  destruct (Z.geb_spec st (total - 1)), (Z.ltb_spec st (total - 1));
    (done || lia).
Qed.

Lemma of_bounds_suffix total end_b en :
  int_or_None end_b = Some (Some en) →
  content_range_of_bounds total EmptyString end_b =
    if (1 <? en)%Z
    then inr (range_object (total - en) (total - 1) total)
    else inl (bounds_refused (total - en) (total - 1) total).
Proof.
  intros He. unfold content_range_of_bounds. cbn [int_or_None]. rewrite He.
  rewrite content_range_header.
  destruct (Z.geb_spec (total - en) (total - 1)), (Z.ltb_spec 1 en);
    (done || lia).
Qed.

Lemma int_or_None_parsed s n :
  s ≠ EmptyString → py_int s = Some n → int_or_None s = Some (Some n).
Proof. intros Hs Hn. by rewrite int_or_None_nonempty, Hn. Qed.

(** X14: a header [bytes=S-E] whose two bounds parse to [st] and [en]
    (blanks around the unit and the bounds are ignored) gives the range from
    [st] to [en] when [st < en], and is refused with [ContentRangeError]
    otherwise; the size of the file plays no part in the decision: an end
    beyond the file is neither refused nor cut back. *)
Theorem content_range_closed U S E st en total :
  has_char "=" U = false → strip U = "bytes" → has_char "-" S = false →
  strip S ≠ EmptyString → strip E ≠ EmptyString →
  py_int (strip S) = Some st → py_int (strip E) = Some en →
  ContentRangeHandler__init__ (Some (U +:+ "=" +:+ S +:+ "-" +:+ E)) total =
    if (st <? en)%Z then inr (range_object st en total)
    else inl (bounds_refused st en total).
Proof.
  intros HU Hunit HS HSne HEne Hst Hen.
  rewrite init_dash by done.
  apply of_bounds_both; by apply int_or_None_parsed.
Qed.

(** X15: a header [bytes=S-] with no end, and likewise a header
    [bytes=S] with no dash at all, asks for the bytes from [st] to the last
    byte of the file, [total - 1]; it is refused unless [st < total - 1],
    so also when only the last byte is left. *)
Theorem content_range_open_ended U S E st total :
  has_char "=" U = false → strip U = "bytes" → has_char "-" S = false →
  strip S ≠ EmptyString → py_int (strip S) = Some st →
  strip E = EmptyString →
  let outcome :=
    if (st <? total - 1)%Z then inr (range_object st (total - 1) total)
    else inl (bounds_refused st (total - 1) total) in
  ContentRangeHandler__init__ (Some (U +:+ "=" +:+ S +:+ "-" +:+ E)) total
    = outcome ∧
  ContentRangeHandler__init__ (Some (U +:+ "=" +:+ S)) total = outcome ∧
  cr_size (range_object st (total - 1) total) = (total - st)%Z.
Proof.
  intros HU Hunit HS HSne Hst HE outcome. subst outcome.
  rewrite init_dash, init_no_dash, HE by done.
  rewrite (of_bounds_open total (strip S) st)
    by (by apply int_or_None_parsed).
  repeat split. simpl. lia.
Qed.

(** X16: a header [bytes=-E] with no start asks for the last [en]
    bytes of the file: from [total - en] to [total - 1], of size [en]; it
    is refused unless [en > 1], and [en] is not compared with the size of
    the file, so the start may be negative. *)
Theorem content_range_suffix U S E en total :
  has_char "=" U = false → strip U = "bytes" → has_char "-" S = false →
  strip S = EmptyString →
  strip E ≠ EmptyString → py_int (strip E) = Some en →
  ContentRangeHandler__init__ (Some (U +:+ "=" +:+ S +:+ "-" +:+ E)) total =
    (if (1 <? en)%Z
     then inr (range_object (total - en) (total - 1) total)
     else inl (bounds_refused (total - en) (total - 1) total)) ∧
  cr_size (range_object (total - en) (total - 1) total) = en.
Proof.
  intros HU Hunit HS HSe HEne Hen.
  rewrite init_dash, HSe by done.
  rewrite (of_bounds_suffix total (strip E) en)
    by (by apply int_or_None_parsed).
  split; [done|]. simpl. lia.
Qed.

(** X17: without a [Range] header the constructor raises
    [HeaderNotFound]; with a header whose unit, the text before the first
    [=] (or the whole header when there is none) without surrounding blanks,
    is not exactly [bytes], it raises [InvalidRangeType] with a message that
    names the unit, before looking at the bounds. *)
Theorem content_range_unit_errors total :
  ContentRangeHandler__init__ None total
    = inl (HeaderNotFound "Range Header Not Found") ∧
  (∀ U V, has_char "=" U = false → strip U ≠ "bytes" →
     ContentRangeHandler__init__ (Some (U +:+ "=" +:+ V)) total =
       inl (InvalidRangeType (strip U +:+ " is not a valid Range Type")
              {| partial_total := total; partial_start := None;
                 partial_end := None |})) ∧
  (∀ R, has_char "=" R = false → strip R ≠ "bytes" →
     ContentRangeHandler__init__ (Some R) total =
       inl (InvalidRangeType (strip R +:+ " is not a valid Range Type")
              {| partial_total := total; partial_start := None;
                 partial_end := None |})).
Proof.
  split; [done|]. split.
  - intros U V HU Hunit. unfold ContentRangeHandler__init__.
    change ("=" +:+ ?x) with (String "=" x).
    rewrite partition_found by done.
    apply String.eqb_neq in Hunit. by rewrite Hunit.
  - intros R HR Hunit. unfold ContentRangeHandler__init__.
    rewrite partition_not_found by done.
    apply String.eqb_neq in Hunit. by rewrite Hunit.
Qed.

(** X18: on a header [bytes=S-E], a start that is not empty and that
    [int] refuses raises [ContentRangeError] with a message quoting it,
    whatever the end is; with a start that is empty or parses, an end that
    is not empty and that [int] refuses raises [ContentRangeError] quoting
    the end; and with both bounds empty the constructor raises
    [ContentRangeError] as well. *)
Theorem content_range_bound_errors U S E total :
  has_char "=" U = false → strip U = "bytes" → has_char "-" S = false →
  let outcome :=
    ContentRangeHandler__init__ (Some (U +:+ "=" +:+ S +:+ "-" +:+ E)) total in
  (strip S ≠ EmptyString → py_int (strip S) = None →
   outcome =
     inl (ContentRangeError
            ("'" +:+ strip S +:+ "' is invalid for Content Range")
            {| partial_total := total; partial_start := None;
               partial_end := None |})) ∧
  (∀ start, int_or_None (strip S) = Some start →
   strip E ≠ EmptyString → py_int (strip E) = None →
   outcome =
     inl (ContentRangeError
            ("'" +:+ strip E +:+ "' is invalid for Content Range")
            {| partial_total := total; partial_start := Some start;
               partial_end := None |})) ∧
  (strip S = EmptyString → strip E = EmptyString →
   outcome =
     inl (ContentRangeError "Invalid for Content Range parameters"
            {| partial_total := total; partial_start := Some None;
               partial_end := Some None |})).
Proof.
  intros HU Hunit HS outcome. subst outcome. rewrite init_dash by done.
  unfold content_range_of_bounds. repeat split.
  - intros HSne Hint. by rewrite int_or_None_nonempty, Hint.
  - intros start Hstart HEne Hint.
    by rewrite Hstart, (int_or_None_nonempty (strip E)), Hint.
  - by intros -> ->.
Qed.

End ContentRangeFacts.

(** ** Stability of hits, and the first lookup after registration *)

Section RegistryStability.
Context `{Hierarchy Cls}.

Implicit Types (self : ErrorHandler Cls) (exception : Exc Cls).
Implicit Types (route_name name : option string) (c : Cls).
Implicit Types (calls : list (RegistryCall Cls)).

Local Abbreviation cache c route_name v self :=
  (set_cached_handlers (λ d, <[(c, route_name) := v]> d) self).

(** A lookup writes to the table only when both exact probes failed. *)
Lemma lookup_state_cases exception route_name self :
  let T := exc_class exception in
  let d := cached_handlers self in
  exec (lookup exception route_name) self = self ∨
  (dict_get d (T, route_name) = None ∧ dict_get d (T, None) = None ∧
   ∃ v, exec (lookup exception route_name) self = cache T route_name v self).
Proof.
  intros T d. unfold exec. rewrite lookup_spec. fold T d.
  destruct (dict_get d (T, route_name)); [by left|].
  destruct (dict_get d (T, None)); [by left|].
  right. split; [done|]. split; [done|].
  destruct (nearest d route_name (chain T)); [by eauto|].
  destruct (nearest d None (chain T)); by eauto.
Qed.

(** The table answers [(T, route_name)] with [h] on the exact probe. *)
Local Abbreviation hit T route_name h self :=
  (dict_get (cached_handlers self) (T, route_name) = Some h ∨
   (dict_get (cached_handlers self) (T, route_name) = None ∧
    dict_get (cached_handlers self) (T, None) = Some h)).

Lemma hit_lookup exception route_name (h : Handler Cls) self :
  hit (exc_class exception) route_name h self →
  eval (lookup exception route_name) self = Ok (Some h).
Proof.
  unfold eval. rewrite lookup_spec. by intros [->|[-> ->]].
Qed.

Lemma lookup_hit exception route_name (h : Handler Cls) self :
  eval (lookup exception route_name) self = Ok (Some h) →
  hit (exc_class exception) route_name h
      (exec (lookup exception route_name) self).
Proof.
  unfold eval, exec. rewrite lookup_spec.
  set (T := exc_class exception). set (d := cached_handlers self).
  destruct (dict_get d (T, route_name)) as [h'|] eqn:ER.
  { intros [= ->]. by left. }
  destruct (dict_get d (T, None)) as [h'|] eqn:EN.
  { intros [= ->]. right. by fold d. }
  assert (Hins : ∀ v, v = Some h →
            dict_get (<[(T, route_name) := v]> d) (T, route_name) = Some h).
  { intros v ->. unfold dict_get. by rewrite lookup_insert_eq. }
  destruct (nearest d route_name (chain T)) as [v|].
  { intros [= ->]. left. by apply Hins. }
  destruct (nearest d None (chain T)) as [v|]; [|done].
  intros [= ->]. left. by apply Hins.
Qed.

Lemma hit_preserved (call : RegistryCall Cls) T route_name (h : Handler Cls)
    self :
  (∀ c h' route_names, call = CallAdd c h' route_names → c ≠ T) →
  hit T route_name h self →
  hit T route_name h (exec (run_call call) self).
Proof.
  intros Hadd Hhit.
  destruct call as [c h' route_names|exception' route_name'].
  - assert (Hc : T ≠ c) by (intros ->; by eapply Hadd).
    simpl. unfold dict_get. by rewrite !add_other_class.
  - rewrite run_call_lookup_state.
    destruct (lookup_state_cases exception' route_name' self)
      as [->|(HR & HN & v & ->)]; [done|].
    cbn [cached_handlers set_cached_handlers]. unfold dict_get in *.
    destruct (decide ((exc_class exception', route_name') = (T, route_name)))
      as [[= <- <-]|Hne1].
    { destruct Hhit as [Hhit|[_ Hhit]]; congruence. }
    rewrite (lookup_insert_ne _ _ (T, route_name)) by done.
    destruct Hhit as [Hhit|[Hmiss Hhit]]; [by left|].
    right. split; [done|].
    destruct (decide ((exc_class exception', route_name') = (T, None)))
      as [[= <- <-]|Hne2]; [congruence|].
    by rewrite lookup_insert_ne.
Qed.

(** X19: a hit is stable: once a lookup has returned a handler for an
    exception and a route name, every later lookup of the same exception and
    route name returns that handler, whatever lookups are made in between
    and whatever is registered in between for other classes. *)
Theorem lookup_hit_stable exception route_name (h : Handler Cls) calls self :
  eval (lookup exception route_name) self = Ok (Some h) →
  (∀ c h' route_names,
     CallAdd c h' route_names ∈ calls → c ≠ exc_class exception) →
  eval (lookup exception route_name)
       (exec (for_each calls run_call)
             (exec (lookup exception route_name) self)) = Ok (Some h).
Proof.
  intros Hfound Hcalls. apply hit_lookup.
  apply lookup_hit in Hfound.
  revert Hfound Hcalls.
  generalize (exec (lookup exception route_name) self). clear self.
  induction calls as [|call calls IH]; intros self Hhit Hcalls; [done|].
  rewrite run_calls_cons. apply IH.
  - apply hit_preserved; [|done].
    intros c h' route_names ->. eapply Hcalls, list_elem_of_here.
  - intros c h' route_names Hin. eapply Hcalls.
    by apply list_elem_of_further.
Qed.

Lemma foldl_insert_keys (entries : gmap (Cls * option string) (Handler Cls))
    (h : Handler Cls) keys key :
  foldl (λ entries key, <[key := h]> entries) entries keys !! key =
    if bool_decide (key ∈ keys) then Some h else entries !! key.
Proof.
  revert entries. induction keys as [|k keys IH]; intros entries; simpl;
    [done|].
  rewrite IH. destruct (decide (key = k)) as [->|Hne].
  - rewrite lookup_insert_eq.
    rewrite (bool_decide_eq_true_2 (_ ∈ _ :: _)) by apply list_elem_of_here.
    by case_bool_decide.
  - rewrite lookup_insert_ne by done. case_bool_decide as Hin.
    + by rewrite bool_decide_eq_true_2 by (by apply list_elem_of_further).
    + rewrite bool_decide_eq_false_2; [done|].
      intros [?|?]%elem_of_cons; done.
Qed.

Lemma add_calls_table adds entries self :
  cached_handlers self = Some <$> entries →
  cached_handlers (exec (for_each (add_calls adds) run_call) self)
    = Some <$> registered_entries entries adds.
Proof.
  revert entries self.
  induction adds as [|[[c h] route_names] adds IH]; intros entries self Hd;
    [done|].
  unfold add_calls. rewrite fmap_cons. fold (add_calls adds).
  rewrite run_calls_cons. simpl. apply IH.
  apply map_eq. intros key.
  rewrite add_table, lookup_fmap, foldl_insert_keys, Hd, lookup_fmap.
  by case_bool_decide.
Qed.

(** X20: on a new [ErrorHandler] on which only [add] has been called,
    a lookup returns what the resolution without a cache returns over the
    table of the registered entries. *)
Theorem first_lookup_uncached fallback base adds exception route_name :
  eval (lookup exception route_name)
       (exec (for_each (add_calls adds) run_call) (__init__ fallback base))
    = Ok (resolve_uncached (registered_entries ∅ adds) exception route_name).
Proof.
  apply lookup_fresh_uncached, add_calls_table.
  by rewrite fmap_empty.
Qed.

(** X23: on a registry on which no lookup has been made (the table holds
    the registered entries and nothing else) and whose entries all lie in
    one scope [sc], a lookup made with that scope (or any lookup, when the
    scope is the global one) follows type specificity: the handler
    registered for the exact runtime type is returned; otherwise the
    handler of the nearest registered class of the MRO, [BaseException]
    being the last class consulted; with no registered class up to
    [BaseException], the result is [None], whatever is registered for a
    class after it. *)
Theorem lookup_fresh_type_specificity
    (entries : gmap (Cls * option string) (Handler Cls))
    self exception route_name (sc : option string) :
  cached_handlers self = Some <$> entries →
  map_Forall (λ key _, key.2 = sc) entries →
  sc = route_name ∨ sc = None →
  let T := exc_class exception in
  let result := eval (lookup exception route_name) self in
  (∀ h, entries !! (T, sc) = Some h → result = Ok (Some h)) ∧
  (∀ pre a post h,
     mro T = pre ++ a :: post → BaseException ∉ pre →
     (∀ c, c ∈ pre → entries !! (c, sc) = None) →
     entries !! (a, sc) = Some h → result = Ok (Some h)) ∧
  (∀ pre post,
     mro T = pre ++ BaseException :: post → BaseException ∉ pre →
     (∀ c, c ∈ pre ++ [BaseException] → entries !! (c, sc) = None) →
     result = Ok None).
Proof.
  intros Hd Hentries Hvis T result. subst T result.
  assert (Hsc : only_scope (cached_handlers self) sc).
  { rewrite Hd. unfold only_scope. intros key v.
    rewrite lookup_fmap. destruct (entries !! key) as [h|] eqn:E; [|done].
    intros _. exact (Hentries key h E). }
  destruct (lookup_single_scope_keys self exception route_name sc Hsc Hvis)
    as (Hexact & Hnearest & Hnone).
  rewrite Hd in Hexact, Hnearest, Hnone.
  repeat split.
  - intros h Hh. apply Hexact. by rewrite lookup_fmap, Hh.
  - intros pre a post h Hmro Hpre Habs Ha.
    apply (Hnearest pre a post h Hmro Hpre).
    + intros c Hc. by rewrite lookup_fmap, (Habs c Hc).
    + by rewrite lookup_fmap, Ha.
  - intros pre post Hmro Hpre Habs.
    apply (Hnone pre post Hmro Hpre).
    intros c Hc. by rewrite lookup_fmap, (Habs c Hc).
Qed.

End RegistryStability.

(** ** The file check of the reloader *)

Section ReloaderFacts.
Context {Path : Type} `{Countable Path} {Time : Type}.
Variable gt : Time → Time → bool.

(** X21: a file seen for the first time is recorded and not reported;
    a check never touches the entry of another file; and, [>] being
    irreflexive, a file checked again with the modification time of the
    previous check is not reported and the dict stays as it was. *)
Theorem check_file_unchanged (mtime : Time) (filename : Path)
    (mtimes : gmap Path Time) :
  (∀ t, gt t t = false) →
  let mtimes' := (_check_file gt (Some mtime) filename mtimes).2 in
  (mtimes !! filename = None →
   _check_file gt (Some mtime) filename mtimes
     = (Checked false, <[filename := mtime]> mtimes)) ∧
  (∀ other, other ≠ filename → mtimes' !! other = mtimes !! other) ∧
  _check_file gt (Some mtime) filename mtimes' = (Checked false, mtimes').
Proof.
  intros Hirrefl mtimes'. subst mtimes'. unfold _check_file.
  destruct (mtimes !! filename) as [old_time|] eqn:Eold.
  - destruct (gt mtime old_time) eqn:Egt; simpl.
    + split; [done|]. split; [intros other Hne; by rewrite lookup_insert_ne|].
      by rewrite lookup_insert_eq, Hirrefl.
    + split; [done|]. split; [done|]. by rewrite Eold, Egt.
  - simpl. split; [done|].
    split; [intros other Hne; by rewrite lookup_insert_ne|].
    by rewrite lookup_insert_eq, Hirrefl.
Qed.

End ReloaderFacts.

(** ** Instances of the further properties on the concrete hierarchy *)

Section ConcreteMore.

Local Abbreviation c := (instance_of c_C).
Local Abbreviation request := (Some (demo_request None)).
Local Abbreviation on_error := (raising_handler "on_error" c_KeyError).
Local Abbreviation interrupted :=
  (raising_handler "on_error" c_KeyboardInterrupt).

Lemma lookup_frame_witness :
  (c_B, @None string) ≠ (c_C, Some "r") ∧
  cached_handlers (exec (lookup c (Some "r")) registry_B) !! (c_B, None)
    = cached_handlers registry_B !! (c_B, None).
Proof.
  assert (Hne : (c_B, @None string) ≠ (c_C, Some "r")) by (intros [=]).
  split; [exact Hne|].
  destruct (lookup_frame c (Some "r") registry_B) as (_ & _ & _ & _ & Hkeys).
  exact (Hkeys (c_B, None) Hne).
Defined.

Lemma add_route_names_entries_witness :
  let self' := exec (add c_C H1 (Some ["r"; "s"])) fresh in
  "s" ∈ ["r"; "s"] ∧
  lookup c (Some "s") self' = (Ok (Some H1), self').
Proof.
  intros self'.
  assert (Hin : "s" ∈ ["r"; "s"])
    by (apply list_elem_of_further, list_elem_of_here).
  split; [exact Hin|].
  destruct (add_route_names_entries c_C H1 "r" ["s"] fresh)
    as (_ & _ & Hlookup).
  exact (Hlookup c "s" eq_refl Hin).
Defined.

Lemma lookup_returns_registered_handler_witness :
  let calls := [CallAdd c_B H2 None; CallLookup c (Some "r")] in
  let self := exec (for_each calls run_call) (__init__ "auto" HTMLRenderer) in
  eval (lookup c None) self = Ok (Some H2) ∧
  H2 ∈ (added_pairs calls).*2.
Proof.
  intros calls self.
  assert (Hfound : eval (lookup c None) self = Ok (Some H2))
    by (vm_compute; reflexivity).
  split; [exact Hfound|].
  destruct (lookup_returns_registered_handler "auto" HTMLRenderer calls)
    as (_ & _ & Hreturned).
  exact (Hreturned c None H2 Hfound).
Defined.

Lemma legacy_lookup_ignores_routes_witness :
  let self2 := exec (add c_C H1 (Some ["r"])) registry_B in
  (∀ c0, cached_handlers registry_B !! (c0, None)
         = cached_handlers self2 !! (c0, None)) ∧
  eval (_legacy_lookup c (Some "r")) registry_B
    = eval (_legacy_lookup c None) self2.
Proof.
  intros self2.
  assert (Hglobal : ∀ c0, cached_handlers registry_B !! (c0, None)
                          = cached_handlers self2 !! (c0, None))
    by (intros []; vm_compute; reflexivity).
  split; [exact Hglobal|].
  exact (proj1 (legacy_lookup_ignores_routes c (Some "r") None registry_B
                  self2 Hglobal)).
Defined.

Lemma finalize_fallback_witness :
  let error_handler :=
    {| obj_attrs := fresh; obj_isinstance_cls := true;
       obj_type_text := "<class 'sanic.handlers.ErrorHandler'>";
       obj_lookup_parameters := 2; obj_has__legacy_lookup := true;
       obj__lookup := Bound_full_lookup |} in
  fallback (obj_attrs error_handler) = "auto" ∧
  "json" ≠ EmptyString ∧ "json" ≠ "auto" ∧
  fallback (obj_attrs (finalize error_handler (Some "json")).1) = "json".
Proof.
  intros error_handler.
  assert (H1' : "json" ≠ EmptyString) by (intros [=]).
  assert (H2' : "json" ≠ "auto") by (intros [=]).
  split; [reflexivity|]. split; [exact H1'|]. split; [exact H2'|].
  destruct (finalize_fallback error_handler (Some "json"))
    as (_ & _ & Hset & _).
  exact (Hset "json" eq_refl eq_refl H1' H2').
Defined.

Lemma finalize_lookup_binding_witness :
  let error_handler :=
    {| obj_attrs := fresh; obj_isinstance_cls := false;
       obj_type_text := "<class 'app.Custom'>";
       obj_lookup_parameters := 1; obj_has__legacy_lookup := false;
       obj__lookup := Bound_full_lookup |} in
  let result := finalize error_handler None in
  result.2.2
    = Raise {| exc_class := c_AttributeError; exc_quiet := None |} ∧
  obj__lookup result.1 = Bound_full_lookup ∧
  result.2.1
    = ["Error handler is non-conforming: <class 'app.Custom'>";
       deprecation_message].
Proof.
  intros error_handler.
  destruct (finalize_lookup_binding error_handler None)
    as (_ & _ & _ & Hraises).
  exact (Hraises eq_refl eq_refl eq_refl).
Defined.

Lemma response_handler_result_witness :
  let w := world (registry_C H1) in
  eval (lookup c None) (eh w) = Ok (Some H1) ∧
  h_call H1 request c = Ok (Some (text "H1" 200)) ∧
  eval (response request c) w = Ok (text "H1" 200).
Proof.
  intros w.
  assert (Hfound : eval (lookup c None) (eh w) = Ok (Some H1))
    by (vm_compute; reflexivity).
  split; [exact Hfound|]. split; [reflexivity|].
  destruct (response_handler_result request c w H1 Hfound) as (Hreturns & _).
  unfold eval. rewrite (Hreturns (text "H1" 200) eq_refl). reflexivity.
Defined.

Lemma response_double_fault_logged_witness :
  let w := world (registry_C on_error) in
  eval (lookup c None) (eh w) = Ok (Some on_error) ∧
  h_call on_error request c = Raise (instance_of c_KeyError) ∧
  isinstance (instance_of c_KeyError) Exception = true ∧
  h_name on_error = Some "on_error" ∧
  error_logger (exec (response request c) w) =
    [{| log_msg := response_message;
        log_args := ["on_error"; "'http://localhost/x'"] |}].
Proof.
  intros w.
  assert (Hfound : eval (lookup c None) (eh w) = Ok (Some on_error))
    by (vm_compute; reflexivity).
  assert (Hcaught : isinstance (instance_of c_KeyError) Exception = true)
    by (vm_compute; reflexivity).
  split; [exact Hfound|]. split; [reflexivity|]. split; [exact Hcaught|].
  split; [reflexivity|].
  exact (proj1 (response_double_fault_logged request c w on_error
                  (instance_of c_KeyError) Hfound eq_refl Hcaught)
           "on_error" eq_refl).
Defined.

Lemma response_non_Exception_propagates_witness :
  let w := world (registry_C interrupted) in
  eval (lookup c None) (eh w) = Ok (Some interrupted) ∧
  h_call interrupted request c = Raise (instance_of c_KeyboardInterrupt) ∧
  isinstance (instance_of c_KeyboardInterrupt) Exception = false ∧
  eval (response request c) w = Raise (instance_of c_KeyboardInterrupt).
Proof.
  intros w.
  assert (Hfound : eval (lookup c None) (eh w) = Ok (Some interrupted))
    by (vm_compute; reflexivity).
  assert (Hcaught :
    isinstance (instance_of c_KeyboardInterrupt) Exception = false)
    by (vm_compute; reflexivity).
  split; [exact Hfound|]. split; [reflexivity|]. split; [exact Hcaught|].
  unfold eval.
  rewrite (response_non_Exception_propagates request c w interrupted
             (instance_of c_KeyboardInterrupt) Hfound eq_refl Hcaught).
  reflexivity.
Defined.

Lemma response_no_handler_fault_escapes_witness :
  eval (lookup c None) (eh (world fresh)) = Ok None ∧
  eval (response None c) (world fresh)
    = Raise {| exc_class := c_AttributeError; exc_quiet := None |}.
Proof.
  assert (Hfound : eval (lookup c None) (eh (world fresh)) = Ok None)
    by (vm_compute; reflexivity).
  split; [exact Hfound|].
  destruct (response_no_handler_fault_escapes None c (world fresh) Hfound)
    as (_ & Habsent).
  unfold eval. rewrite (Habsent eq_refl). reflexivity.
Defined.

Lemma lookup_hit_stable_witness :
  let calls := [CallLookup (instance_of c_A) (Some "r"); CallAdd c_A H1 None] in
  eval (lookup c (Some "r")) registry_B = Ok (Some H2) ∧
  (∀ c0 h' route_names,
     CallAdd c0 h' route_names ∈ calls → c0 ≠ exc_class c) ∧
  eval (lookup c (Some "r"))
       (exec (for_each calls run_call) (exec (lookup c (Some "r")) registry_B))
    = Ok (Some H2).
Proof.
  intros calls.
  assert (Hfound : eval (lookup c (Some "r")) registry_B = Ok (Some H2))
    by (vm_compute; reflexivity).
  assert (Hcalls : ∀ c0 h' route_names,
            CallAdd c0 h' route_names ∈ calls → c0 ≠ exc_class c).
  { intros c0 h' route_names Hin.
    apply elem_of_cons in Hin as [Hin|Hin]; [discriminate Hin|].
    apply list_elem_of_singleton in Hin. injection Hin as -> _ _.
    intros [=]. }
  split; [exact Hfound|]. split; [exact Hcalls|].
  exact (lookup_hit_stable c (Some "r") H2 calls registry_B Hfound Hcalls).
Defined.

Lemma check_file_unchanged_witness :
  (∀ t, Z.gtb t t = false) ∧
  _check_file Z.gtb (Some 7%Z) "app.py" ({[ "app.py" := 5%Z ]} : gmap string Z)
    = (Checked true, {[ "app.py" := 7%Z ]}) ∧
  _check_file Z.gtb (Some 7%Z) "app.py" ({[ "app.py" := 7%Z ]} : gmap string Z)
    = (Checked false, {[ "app.py" := 7%Z ]}).
Proof.
  assert (Hirrefl : ∀ t, Z.gtb t t = false).
  { intros t. rewrite Z.gtb_ltb. apply Z.ltb_irrefl. }
  split; [exact Hirrefl|].
  assert (Hfirst :
    _check_file Z.gtb (Some 7%Z) "app.py"
      ({[ "app.py" := 5%Z ]} : gmap string Z)
    = (Checked true, {[ "app.py" := 7%Z ]})) by (vm_compute; reflexivity).
  split; [exact Hfirst|].
  destruct (check_file_unchanged Z.gtb 7%Z "app.py"
              ({[ "app.py" := 5%Z ]} : gmap string Z) Hirrefl)
    as (_ & _ & Hagain).
  rewrite Hfirst in Hagain. exact Hagain.
Defined.

Lemma content_range_constructed_witness :
  ContentRangeHandler__init__ (Some "bytes=0-499") 1000
    = inr (range_object 0 499 1000) ∧
  (cr_start (range_object 0 499 1000) < cr_end (range_object 0 499 1000))%Z ∧
  ContentRangeHandler__bool__ (range_object 0 499 1000) = true.
Proof.
  assert (Hinit : ContentRangeHandler__init__ (Some "bytes=0-499") 1000
                  = inr (range_object 0 499 1000))
    by (vm_compute; reflexivity).
  split; [exact Hinit|].
  destruct (content_range_constructed (Some "bytes=0-499") 1000
              (range_object 0 499 1000) Hinit)
    as (Hlt & _ & _ & _ & _ & Hbool & _).
  split; [exact Hlt|exact Hbool].
Defined.

Lemma content_range_closed_witness :
  has_char "=" "bytes" = false ∧ strip "bytes" = "bytes" ∧
  has_char "-" " 0 " = false ∧
  strip " 0 " ≠ EmptyString ∧ strip "499" ≠ EmptyString ∧
  py_int (strip " 0 ") = Some 0%Z ∧ py_int (strip "499") = Some 499%Z ∧
  ContentRangeHandler__init__
    (Some ("bytes" +:+ "=" +:+ " 0 " +:+ "-" +:+ "499")) 1000
    = inr (range_object 0 499 1000).
Proof.
  assert (HS : strip " 0 " ≠ EmptyString) by (intros [=]).
  assert (HE : strip "499" ≠ EmptyString) by (intros [=]).
  repeat (split; [first [reflexivity | exact HS | exact HE]|]).
  exact (content_range_closed "bytes" " 0 " "499" 0 499 1000
           eq_refl eq_refl eq_refl HS HE eq_refl eq_refl).
Defined.

Lemma content_range_open_ended_witness :
  has_char "=" "bytes" = false ∧ strip "bytes" = "bytes" ∧
  has_char "-" "500" = false ∧ strip "500" ≠ EmptyString ∧
  py_int (strip "500") = Some 500%Z ∧ strip EmptyString = EmptyString ∧
  ContentRangeHandler__init__ (Some ("bytes" +:+ "=" +:+ "500")) 1000
    = inr (range_object 500 999 1000).
Proof.
  assert (HS : strip "500" ≠ EmptyString) by (intros [=]).
  assert (Hint : py_int (strip "500") = Some 500%Z)
    by (vm_compute; reflexivity).
  repeat (split; [first [reflexivity | exact HS | exact Hint]|]).
  destruct (content_range_open_ended "bytes" "500" EmptyString 500 1000
              eq_refl eq_refl eq_refl HS Hint eq_refl)
    as (_ & Hnodash & _).
  exact Hnodash.
Defined.

Lemma content_range_suffix_witness :
  has_char "=" "bytes" = false ∧ strip "bytes" = "bytes" ∧
  has_char "-" EmptyString = false ∧ strip EmptyString = EmptyString ∧
  strip "5" ≠ EmptyString ∧ py_int (strip "5") = Some 5%Z ∧
  ContentRangeHandler__init__
    (Some ("bytes" +:+ "=" +:+ EmptyString +:+ "-" +:+ "5")) 1000
    = inr (range_object 995 999 1000).
Proof.
  assert (HE : strip "5" ≠ EmptyString) by (intros [=]).
  repeat (split; [first [reflexivity | exact HE]|]).
  exact (proj1 (content_range_suffix "bytes" EmptyString "5" 5 1000
                  eq_refl eq_refl eq_refl eq_refl HE eq_refl)).
Defined.

Lemma content_range_unit_errors_witness :
  has_char "=" "Bytes" = false ∧ strip "Bytes" ≠ "bytes" ∧
  ContentRangeHandler__init__ (Some ("Bytes" +:+ "=" +:+ "0-5")) 1000
    = inl (InvalidRangeType "Bytes is not a valid Range Type"
             {| partial_total := 1000; partial_start := None;
                partial_end := None |}).
Proof.
  assert (HU : strip "Bytes" ≠ "bytes") by (intros [=]).
  split; [reflexivity|]. split; [exact HU|].
  destruct (content_range_unit_errors 1000) as (_ & Hunit & _).
  exact (Hunit "Bytes" "0-5" eq_refl HU).
Defined.

Lemma content_range_bound_errors_witness :
  has_char "=" "bytes" = false ∧ strip "bytes" = "bytes" ∧
  has_char "-" "a" = false ∧ strip "a" ≠ EmptyString ∧
  py_int (strip "a") = None ∧
  ContentRangeHandler__init__
    (Some ("bytes" +:+ "=" +:+ "a" +:+ "-" +:+ "5")) 1000
    = inl (ContentRangeError "'a' is invalid for Content Range"
             {| partial_total := 1000; partial_start := None;
                partial_end := None |}).
Proof.
  assert (HS : strip "a" ≠ EmptyString) by (intros [=]).
  repeat (split; [first [reflexivity | exact HS]|]).
  destruct (content_range_bound_errors "bytes" "a" "5" 1000
              eq_refl eq_refl eq_refl) as (Hstart & _).
  exact (Hstart HS eq_refl).
Defined.

Lemma lookup_fresh_type_specificity_witness :
  cached_handlers registry_A_B = Some <$> entries_A_B ∧
  map_Forall (λ key _, key.2 = @None string) entries_A_B ∧
  (None = @None string ∨ None = @None string) ∧
  eval (lookup c None) registry_A_B = Ok (Some H2).
Proof.
  assert (Hd : cached_handlers registry_A_B = Some <$> entries_A_B)
    by (by vm_compute).
  assert (Hsc : map_Forall (λ key _, key.2 = @None string) entries_A_B).
  { apply (bool_decide_unpack _). vm_compute. exact I. }
  split; [exact Hd|]. split; [exact Hsc|]. split; [by left|].
  destruct (lookup_fresh_type_specificity entries_A_B registry_A_B c None
              None Hd Hsc (or_introl eq_refl)) as (_ & Hnearest & _).
  apply (Hnearest [c_C] c_B [c_A; c_Exception; c_BaseException; c_object]
           H2).
  - reflexivity.
  - apply (bool_decide_unpack _). vm_compute. exact I.
  - intros c' ->%list_elem_of_singleton. vm_compute. reflexivity.
  - vm_compute. reflexivity.
Defined.

End ConcreteMore.

(** ** The default path of [response] *)

Section DefaultPath.
Context `{Hierarchy Cls} `{!Collaborators Cls}.

Implicit Types (exception : Exc Cls) (w : World Cls) (req : Request).

Lemma lookup_attributes exception route_name (self : ErrorHandler Cls) :
  let self' := exec (lookup exception route_name) self in
  debug self' = debug self ∧ base self' = base self ∧
  fallback self' = fallback self.
Proof.
  intros self'. subst self'. unfold exec.
  by destruct (lookup_cases exception route_name self)
    as [(h & -> & _)|(v & -> & _)].
Qed.

(** X22: when no handler is resolved for a present request and the
    renderer, called with the [debug], [base] and [fallback] of the handler
    object, returns a response, [response] returns that response; on the way
    it logs the exception once if its [quiet] attribute is the value [False]
    (or is absent) or the [NOISY_EXCEPTIONS] setting is the value [True],
    and logs nothing otherwise. *)
Theorem response_default_path req exception w r :
  eval (lookup exception (req_name req)) (eh w) = Ok None →
  exception_response (Some req) exception
    (debug (eh w)) (base (eh w)) (fallback (eh w)) = Ok r →
  let logs :=
    is_False (getattr_default (exc_quiet exception) (PyBool false))
    || is_True (getattr_default (req_NOISY_EXCEPTIONS req) (PyBool false)) in
  eval (response (Some req) exception) w = Ok r ∧
  error_logger (exec (response (Some req) exception) w) =
    error_logger w ++
      (if logs
       then [{| log_msg := "Exception occurred while handling uri: %s";
                log_args := [url_or_unknown (Some req)] |}]
       else []).
Proof.
  intros Hfound Hrender logs. subst logs.
  destruct (lookup_attributes exception (req_name req) (eh w))
    as (Hdebug & Hbase & Hfallback).
  unfold eval, exec.
  rewrite (response_unfold (Some req) exception w None Hfound).
  unfold try_except, response_try, default, log, mbind, M_bind, bind.
  unfold mret at 1, M_ret, ret.
  destruct (is_False _ || is_True _);
    unfold logger_exception, modify, get_state, lift_res, mret, M_ret, ret;
    cbn [eh error_logger fst snd];
    rewrite Hdebug, Hbase, Hfallback, Hrender; cbn [fst snd error_logger];
    by rewrite ?app_nil_r.
Qed.

End DefaultPath.

Section ConcreteDefault.

Lemma response_default_path_witness :
  let w := world fresh in
  let req := demo_request (Some "r") in
  let page := {| resp_body := "error page"; resp_status := 500%Z;
                 resp_content_type := "text/html; charset=utf-8" |} in
  eval (lookup (instance_of c_C) (req_name req)) (eh w) = Ok None ∧
  exception_response (Some req) (instance_of c_C)
    (debug (eh w)) (base (eh w)) (fallback (eh w)) = Ok page ∧
  eval (response (Some req) (instance_of c_C)) w = Ok page.
Proof.
  intros w req page.
  assert (Hfound :
    eval (lookup (instance_of c_C) (req_name req)) (eh w) = Ok None)
    by (vm_compute; reflexivity).
  split; [exact Hfound|]. split; [reflexivity|].
  exact (proj1 (response_default_path req (instance_of c_C) w page
                  Hfound eq_refl)).
Defined.

End ConcreteDefault.
